(** * felix/iptables/rules.go: rule rendering and chained rule hashes

    A shallow embedding of [go/felix/iptables/rules.go]: the [Action]
    implementations and their [ToFragment] methods, the three [Rule]
    renderers built on [renderInner], and [Chain.RuleHashes], together with
    the library routines they call ([fmt]'s integer verbs, [strings.Join],
    SHA-224 and the raw URL-safe base-64 encoder).

    Go strings and byte slices are sequences of bytes: a Go [string] is a
    [string] here (a list of 8-bit [ascii]), a [[]byte] is a [list byte]. *)

From Stdlib Require Import ZArith Lia String Ascii List Bool.
From Stdlib Require Import Strings.Byte.
From stdpp Require Import base option list strings.
Import ListNotations.

Local Open Scope Z_scope.

(* ===================================================================== *)
(** ** Strings and byte slices *)
(* ===================================================================== *)

(** [[]byte(s)]: the bytes of a Go string (its UTF-8 text, as stored). *)
Definition bytes_of_string (s : string) : list byte :=
  list_byte_of_string s.

Definition byte_to_Z (b : byte) : Z := Z.of_N (Byte.to_N b).

(** [byte(z)]: conversion to a byte keeps the low eight bits. *)
Definition byte_of_Z (z : Z) : byte :=
  match Byte.of_N (Z.to_N (Z.land z 255)) with
  | Some b => b
  | None => x00
  end.

(** [s == ""] *)
Definition is_empty (s : string) : bool :=
  match s with
  | EmptyString => true
  | String _ _ => false
  end.

(** [s[:n]] on a string: Go panics when [n] is past the end of [s]. *)
Definition slice_to (s : string) (n : nat) : option string :=
  if (n <=? String.length s)%nat then Some (substring 0 n s) else None.

(** [a[i] = x] on a slice: Go panics when [i] is out of range. *)
Definition store_index {A : Type} (a : list A) (i : nat) (x : A)
  : option (list A) :=
  if (i <? length a)%nat then Some (<[i := x]> a) else None.

(** [strings.Join(a, sep)] *)
Fixpoint Join (a : list string) (sep : string) : string :=
  match a with
  | [] => EmptyString
  | [x] => x
  | x :: rest => x +:+ sep +:+ Join rest sep
  end.

(* ===================================================================== *)
(** ** fmt: the integer verbs [%x] and [%d] *)
(* ===================================================================== *)

(** [fmt]'s digit table ([ldigits]). *)
Definition ldigits : string := "0123456789abcdefx".

Definition digit (u : Z) : ascii :=
  match String.get (Z.to_nat u) ldigits with
  | Some c => c
  | None => "0"%char
  end.

(** The digit loop of [fmt.fmtInteger]: digits are written from the least
    significant one into the end of a buffer, [for u >= base { ... }], and
    the last digit is written after the loop.  [u] is a 64-bit word and
    every turn divides it by the base, so 64 turns are never used up. *)
Fixpoint fmt_digits (fuel : nat) (base u : Z) (buf : string) : string :=
  match fuel with
  | O => buf
  | S fuel' =>
      if base <=? u
      then fmt_digits fuel' base (u / base) (String (digit (u mod base)) buf)
      else String (digit u) buf
  end.

Definition fmtInteger (base u : Z) : string :=
  if u <? 0
  then String "-" (fmt_digits 64 base (- u) EmptyString)
  else fmt_digits 64 base u EmptyString.

(** [%x] and [%d] with no flags, and [%s]. *)
Definition fmt_x (u : Z) : string := fmtInteger 16 u.
Definition fmt_d (u : Z) : string := fmtInteger 10 u.
Definition fmt_s (s : string) : string := s.

(* ===================================================================== *)
(** ** crypto/sha256: SHA-224 (FIPS 180-4) *)
(* ===================================================================== *)

Module SHA224.

Definition wrap32 (x : Z) : Z := Z.land x 0xffffffff.
Definition add32 (x y : Z) : Z := wrap32 (x + y).
Definition rotr (n x : Z) : Z :=
  wrap32 (Z.lor (Z.shiftr x n) (Z.shiftl x (32 - n))).
Definition shr (n x : Z) : Z := Z.shiftr x n.
Definition not32 (x : Z) : Z := Z.lxor x 0xffffffff.

Definition Ch (x y z : Z) : Z := Z.lxor (Z.land x y) (Z.land (not32 x) z).
Definition Maj (x y z : Z) : Z :=
  Z.lxor (Z.lxor (Z.land x y) (Z.land x z)) (Z.land y z).
Definition Sigma0 (x : Z) : Z :=
  Z.lxor (Z.lxor (rotr 2 x) (rotr 13 x)) (rotr 22 x).
Definition Sigma1 (x : Z) : Z :=
  Z.lxor (Z.lxor (rotr 6 x) (rotr 11 x)) (rotr 25 x).
Definition sigma0 (x : Z) : Z :=
  Z.lxor (Z.lxor (rotr 7 x) (rotr 18 x)) (shr 3 x).
Definition sigma1 (x : Z) : Z :=
  Z.lxor (Z.lxor (rotr 17 x) (rotr 19 x)) (shr 10 x).

(** The round constants [_K], four to a row. *)
Definition K_rows : list (Z * Z * Z * Z) :=
  [ (0x428a2f98, 0x71374491, 0xb5c0fbcf, 0xe9b5dba5);
    (0x3956c25b, 0x59f111f1, 0x923f82a4, 0xab1c5ed5);
    (0xd807aa98, 0x12835b01, 0x243185be, 0x550c7dc3);
    (0x72be5d74, 0x80deb1fe, 0x9bdc06a7, 0xc19bf174);
    (0xe49b69c1, 0xefbe4786, 0x0fc19dc6, 0x240ca1cc);
    (0x2de92c6f, 0x4a7484aa, 0x5cb0a9dc, 0x76f988da);
    (0x983e5152, 0xa831c66d, 0xb00327c8, 0xbf597fc7);
    (0xc6e00bf3, 0xd5a79147, 0x06ca6351, 0x14292967);
    (0x27b70a85, 0x2e1b2138, 0x4d2c6dfc, 0x53380d13);
    (0x650a7354, 0x766a0abb, 0x81c2c92e, 0x92722c85);
    (0xa2bfe8a1, 0xa81a664b, 0xc24b8b70, 0xc76c51a3);
    (0xd192e819, 0xd6990624, 0xf40e3585, 0x106aa070);
    (0x19a4c116, 0x1e376c08, 0x2748774c, 0x34b0bcb5);
    (0x391c0cb3, 0x4ed8aa4a, 0x5b9cca4f, 0x682e6ff3);
    (0x748f82ee, 0x78a5636f, 0x84c87814, 0x8cc70208);
    (0x90befffa, 0xa4506ceb, 0xbef9a3f7, 0xc67178f2) ].

Definition K : list Z :=
  flat_map (fun '(k0, k1, k2, k3) => [k0; k1; k2; k3]) K_rows.

(** The eight working words. *)
Record regs := Regs {
  ra : Z; rb : Z; rc : Z; rd : Z; re : Z; rf : Z; rg : Z; rh : Z
}.

(** [init0_224 .. init7_224] *)
Definition init224 : regs :=
  Regs 0xc1059ed8 0x367cd507 0x3070dd17 0xf70e5939
       0xffc00b31 0x68581511 0x64f98fa7 0xbefa4fa4.

(** Padding: a one bit, zero bytes up to 56 modulo 64, then the length
    of the message in bits as a 64-bit big-endian number. *)
Definition be_bytes (nbytes : nat) (x : Z) : list byte :=
  map (fun i => byte_of_Z (Z.shiftr x (8 * Z.of_nat i)))
      (rev (seq 0 nbytes)).

Definition pad (msg : list byte) : list byte :=
  let len := Z.of_nat (length msg) in
  let zeros := Z.to_nat ((55 - len) mod 64) in
  msg ++ [x80] ++ replicate zeros x00 ++ be_bytes 8 (8 * len).

(** Big-endian 32-bit words of a block. *)
Fixpoint words (bs : list byte) : list Z :=
  match bs with
  | b0 :: b1 :: b2 :: b3 :: rest =>
      Z.lor (Z.lor (Z.lor (Z.shiftl (byte_to_Z b0) 24)
                          (Z.shiftl (byte_to_Z b1) 16))
                   (Z.shiftl (byte_to_Z b2) 8))
            (byte_to_Z b3)
      :: words rest
  | _ => []
  end.

(** The message schedule: sixteen words of the block, then 48 more,
    [w[i] = sigma1 w[i-2] + w[i-7] + sigma0 w[i-15] + w[i-16]]. *)
Definition w_at (w : list Z) (i : nat) : Z := nth i w 0.

Fixpoint extend (n : nat) (w : list Z) : list Z :=
  match n with
  | O => w
  | S n' =>
      let i := length w in
      let x := add32 (add32 (sigma1 (w_at w (i - 2))) (w_at w (i - 7)))
                     (add32 (sigma0 (w_at w (i - 15))) (w_at w (i - 16))) in
      extend n' (w ++ [x])
  end.

Definition schedule (blk : list byte) : list Z := extend 48 (words blk).

Definition round (r : regs) (kw : Z * Z) : regs :=
  let t1 := add32 (add32 (add32 (add32 (rh r) (Sigma1 (re r)))
                                (Ch (re r) (rf r) (rg r)))
                         (fst kw))
                  (snd kw) in
  let t2 := add32 (Sigma0 (ra r)) (Maj (ra r) (rb r) (rc r)) in
  Regs (add32 t1 t2) (ra r) (rb r) (rc r) (add32 (rd r) t1)
       (re r) (rf r) (rg r).

(** One block: 64 rounds, then the result is added to the state. *)
Definition block (h : regs) (blk : list byte) : regs :=
  let r := fold_left round (combine K (schedule blk)) h in
  Regs (add32 (ra h) (ra r)) (add32 (rb h) (rb r))
       (add32 (rc h) (rc r)) (add32 (rd h) (rd r))
       (add32 (re h) (re r)) (add32 (rf h) (rf r))
       (add32 (rg h) (rg r)) (add32 (rh h) (rh r)).

Fixpoint blocks (n : nat) (h : regs) (bs : list byte) : regs :=
  match n with
  | O => h
  | S n' => blocks n' (block h (take 64 bs)) (drop 64 bs)
  end.

Definition word_bytes (x : Z) : list byte := be_bytes 4 x.

(** The digest: the first seven words of the final state. *)
Definition sum224 (msg : list byte) : list byte :=
  let p := pad msg in
  let h := blocks (length p / 64) init224 p in
  word_bytes (ra h) ++ word_bytes (rb h) ++ word_bytes (rc h)
  ++ word_bytes (rd h) ++ word_bytes (re h) ++ word_bytes (rf h)
  ++ word_bytes (rg h).

End SHA224.

(* ===================================================================== *)
(** ** hash.Hash, as returned by [sha256.New224] *)
(* ===================================================================== *)

(** The hasher is the message written so far: [Write] adds bytes to it,
    [Sum] appends the digest of the message to its argument and leaves the
    hasher as it is, [Reset] forgets the message. *)
Module Hash.

Record t := Hasher { written : list byte }.

Definition New224 : t := Hasher [].
Definition Write (s : t) (p : list byte) : t := Hasher (written s ++ p).
Definition Sum (s : t) (b : list byte) : list byte :=
  b ++ SHA224.sum224 (written s).
Definition Reset (s : t) : t := Hasher [].

End Hash.

(* ===================================================================== *)
(** ** encoding/base64: [RawURLEncoding.EncodeToString] *)
(* ===================================================================== *)

Module Base64.

(** [encodeURL], the alphabet of [URLEncoding]. *)
Definition encodeURL : string :=
  "ABCDEFGHIJKLMNOPQRSTUVWXYZabcdefghijklmnopqrstuvwxyz0123456789-_".

(** [enc.encode[i]] *)
Definition encode_at (i : Z) : ascii :=
  match String.get (Z.to_nat i) encodeURL with
  | Some c => c
  | None => "000"%char
  end.

(** [val>>n & 0x3F] *)
Definition sextet (val n : Z) : Z := Z.land (Z.shiftr val n) 0x3F.

(** [Encode] with no padding character: full groups of three bytes give
    four characters, a rest of two bytes gives three and a rest of one
    byte gives two. *)
Fixpoint EncodeToString (src : list byte) : string :=
  match src with
  | [] => EmptyString
  | [b0] =>
      let val := Z.shiftl (byte_to_Z b0) 16 in
      String (encode_at (sextet val 18))
        (String (encode_at (sextet val 12)) EmptyString)
  | [b0; b1] =>
      let val := Z.lor (Z.shiftl (byte_to_Z b0) 16)
                       (Z.shiftl (byte_to_Z b1) 8) in
      String (encode_at (sextet val 18))
        (String (encode_at (sextet val 12))
          (String (encode_at (sextet val 6)) EmptyString))
  | b0 :: b1 :: b2 :: rest =>
      let val := Z.lor (Z.lor (Z.shiftl (byte_to_Z b0) 16)
                              (Z.shiftl (byte_to_Z b1) 8))
                       (byte_to_Z b2) in
      String (encode_at (sextet val 18))
        (String (encode_at (sextet val 12))
          (String (encode_at (sextet val 6))
            (String (encode_at (sextet val 0)) (EncodeToString rest))))
  end.

End Base64.

(* ===================================================================== *)
(** ** Actions *)
(* ===================================================================== *)

Definition HashLength : nat := 16.

(** The method set of the [Action] interface. *)
Class ToFragmenter (A : Type) := ToFragment : A -> string.

Record GotoAction := { GotoAction_Target : string }.
Record JumpAction := { JumpAction_Target : string }.
Record ReturnAction := { }.
Record DropAction := { }.
Record AcceptAction := { }.
(** [DestPort] is a [uint16]. *)
Record DNATAction := { DNATAction_DestAddr : string; DNATAction_DestPort : Z }.
Record MasqAction := { }.
(** [Mark] is a [uint32]. *)
Record ClearMarkAction := { ClearMarkAction_Mark : Z }.
Record SetMarkAction := { SetMarkAction_Mark : Z }.

Definition is_uint16 (x : Z) : Prop := 0 <= x < 2 ^ 16.
Definition is_uint32 (x : Z) : Prop := 0 <= x < 2 ^ 32.

#[export] Instance GotoAction_ToFragment : ToFragmenter GotoAction :=
  fun g => "--goto " +:+ GotoAction_Target g.

#[export] Instance JumpAction_ToFragment : ToFragmenter JumpAction :=
  fun g => "--jump " +:+ JumpAction_Target g.

#[export] Instance ReturnAction_ToFragment : ToFragmenter ReturnAction :=
  fun r => "--jump RETURN".

#[export] Instance DropAction_ToFragment : ToFragmenter DropAction :=
  fun g => "--jump DROP".

#[export] Instance AcceptAction_ToFragment : ToFragmenter AcceptAction :=
  fun g => "--jump ACCEPT".

#[export] Instance DNATAction_ToFragment : ToFragmenter DNATAction :=
  fun g => "--jump DNAT --to-destination "
           +:+ fmt_s (DNATAction_DestAddr g) +:+ ":"
           +:+ fmt_d (DNATAction_DestPort g).

#[export] Instance MasqAction_ToFragment : ToFragmenter MasqAction :=
  fun g => "--jump MASQUERADE".

#[export] Instance ClearMarkAction_ToFragment : ToFragmenter ClearMarkAction :=
  fun c => "--jump MARK --set-mark 0/" +:+ fmt_x (ClearMarkAction_Mark c).

#[export] Instance SetMarkAction_ToFragment : ToFragmenter SetMarkAction :=
  fun c => "--jump MARK --set-mark " +:+ fmt_x (SetMarkAction_Mark c)
           +:+ "/" +:+ fmt_x (SetMarkAction_Mark c).

(** A value of the interface type [Action]: a value of some type that has
    the method, with its method. *)
Record Action := MkAction {
  Action_type : Type;
  Action_methods : ToFragmenter Action_type;
  Action_value : Action_type
}.
Arguments MkAction {_ _} _.

#[export] Instance Action_ToFragment : ToFragmenter Action :=
  fun a => @ToFragment _ (Action_methods a) (Action_value a).

(* ===================================================================== *)
(** ** logrus *)
(* ===================================================================== *)

(** [log.Level]: [PanicLevel] is 0, [DebugLevel] is 5. *)
Definition Level := Z.
Definition DebugLevel : Level := 5.

(** The fields of the entry [RuleHashes] logs for a rule ([Hashed rule]). *)
Record LogEntry := {
  LogEntry_ruleFragment : string;
  LogEntry_action : Action;
  LogEntry_position : nat;
  LogEntry_chain : string;
  LogEntry_hash : string
}.

(* ===================================================================== *)
(** ** Rules and chains *)
(* ===================================================================== *)

(** The method [Render] of [MatchCriteria]; the type is declared in
    another file of the package and is a parameter here. *)
Class Renderer (M : Type) := Render : M -> string.

Section Rules.

Context {MatchCriteria : Type} `{!Renderer MatchCriteria}.

Record Rule := {
  Rule_Match : MatchCriteria;
  Rule_Action : Action;
  Rule_Comment : string
}.

Definition renderInner (r : Rule) (fragments : list string)
           (prefixFragment : string) : string :=
  let fragments :=
    if negb (is_empty prefixFragment)
    then fragments ++ [prefixFragment]
    else fragments in
  let fragments :=
    if negb (is_empty (Rule_Comment r))
    then
      let commentFragment :=
        "-m comment --comment " +:+ String "034" (fmt_s (Rule_Comment r))
        +:+ String "034" EmptyString in
      fragments ++ [commentFragment]
    else fragments in
  let matchFragment := Render (Rule_Match r) in
  let fragments :=
    if negb (is_empty matchFragment)
    then fragments ++ [matchFragment]
    else fragments in
  let actionFragment := ToFragment (Rule_Action r) in
  let fragments :=
    if negb (is_empty actionFragment)
    then fragments ++ [actionFragment]
    else fragments in
  Join fragments " ".

Definition RenderAppend (r : Rule) (chainName prefixFragment : string)
  : string :=
  let fragments := [] ++ ["-A"; chainName] in
  renderInner r fragments prefixFragment.

Definition RenderInsert (r : Rule) (chainName prefixFragment : string)
  : string :=
  let fragments := [] ++ ["-I"; chainName] in
  renderInner r fragments prefixFragment.

(** [ruleNum] is an [int]. *)
Definition RenderReplace (r : Rule) (chainName : string) (ruleNum : Z)
           (prefixFragment : string) : string :=
  let fragments := [] ++ ["-R"; chainName; fmt_d ruleNum] in
  renderInner r fragments prefixFragment.

Record Chain := {
  Chain_Name : string;
  Chain_Rules : list Rule
}.

(** The state of the loop of [RuleHashes]: the hasher [s], the running
    digest [hash], the result slice [hashes], and what was logged. *)
Record loop_state := {
  st_s : Hash.t;
  st_hash : list byte;
  st_hashes : list string;
  st_logged : list LogEntry
}.

(** The body of the loop, for the rule at index [ii].  [hash[0:0]] is
    the empty slice over the array of [hash]; [Sum] computes the digest
    before it appends, so [hash] becomes the new digest. *)
Definition hash_rule (level : Level) (name : string) (ii : nat)
           (rule : Rule) (st : loop_state) : option loop_state :=
  let s := Hash.Reset (st_s st) in
  let s := Hash.Write s (st_hash st) in
  let ruleForHashing := RenderAppend rule name "HASH" in
  let s := Hash.Write s (bytes_of_string ruleForHashing) in
  let hash := Hash.Sum s (take 0 (st_hash st)) in
  fp ← slice_to (Base64.EncodeToString hash) HashLength;
  hashes ← store_index (st_hashes st) ii fp;
  logged ←
    (if DebugLevel <=? level
     then
       hashed ← hashes !! ii;
       Some (st_logged st ++
             [ {| LogEntry_ruleFragment := ruleForHashing;
                  LogEntry_action := Rule_Action rule;
                  LogEntry_position := ii;
                  LogEntry_chain := name;
                  LogEntry_hash := hashed |} ])
     else Some (st_logged st));
  Some {| st_s := s; st_hash := hash; st_hashes := hashes;
          st_logged := logged |}.

(** [for ii, rule := range c.Rules] *)
Fixpoint range_rules (level : Level) (name : string) (ii : nat)
         (rules : list Rule) (st : loop_state) : option loop_state :=
  match rules with
  | [] => Some st
  | rule :: rest =>
      st' ← hash_rule level name ii rule st;
      range_rules level name (S ii) rest st'
  end.

(** [RuleHashes], run with the logger at [level]: the hashes, and the
    entries logged; [None] stands for a run-time panic. *)
Definition RuleHashes (level : Level) (c : Chain)
  : option (list string * list LogEntry) :=
  let hashes := replicate (length (Chain_Rules c)) EmptyString in
  let s := Hash.New224 in
  let s := Hash.Write s (bytes_of_string (Chain_Name c)) in
  let hash := Hash.Sum s [] in
  st ← range_rules level (Chain_Name c) 0 (Chain_Rules c)
       {| st_s := s; st_hash := hash; st_hashes := hashes;
          st_logged := [] |};
  Some (st_hashes st, st_logged st).

End Rules.

(* ===================================================================== *)
(** ** The specification side *)
(* ===================================================================== *)

(** *** Numbers as text *)

(** The place of [c] in the digits [s], counted from [i]. *)
Fixpoint digit_index (c : ascii) (s : string) (i : Z) : option Z :=
  match s with
  | EmptyString => None
  | String x s' =>
      if Ascii.eqb c x then Some i else digit_index c s' (i + 1)
  end.

Definition hex_digit_value (c : ascii) : option Z :=
  digit_index c "0123456789abcdef" 0.

Definition dec_digit_value (c : ascii) : option Z :=
  digit_index c "0123456789" 0.

(** The number a digit string denotes, read from the left, starting from
    [acc]; [None] when a character is not a digit. *)
Fixpoint digits_value (dv : ascii -> option Z) (base acc : Z) (s : string)
  : option Z :=
  match s with
  | EmptyString => Some acc
  | String c s' =>
      match dv c with
      | Some d => digits_value dv base (acc * base + d) s'
      | None => None
      end
  end.

Definition number_value (dv : ascii -> option Z) (base : Z) (s : string)
  : option Z :=
  if is_empty s then None else digits_value dv base 0 s.

(** No padding: a leading [0] only as the whole text. *)
Definition natural_width (s : string) : bool :=
  match s with
  | String "0" (String _ _) => false
  | _ => true
  end.

(** [s] is [u] in lower-case hexadecimal: digits [0-9a-f] only (so no
    [0x]), the value [u], no zero padding. *)
Definition is_hex_repr (s : string) (u : Z) : Prop :=
  number_value hex_digit_value 16 s = Some u /\ natural_width s = true.

(** [s] is [u] in decimal, no zero padding. *)
Definition is_dec_repr (s : string) (u : Z) : Prop :=
  number_value dec_digit_value 10 s = Some u /\ natural_width s = true.

(** *** Text without doubled spaces *)

Definition is_space (c : ascii) : bool := Ascii.eqb c " ".

Definition starts_with_space (s : string) : bool :=
  match s with
  | EmptyString => false
  | String c _ => is_space c
  end.

Fixpoint ends_with_space (s : string) : bool :=
  match s with
  | EmptyString => false
  | String c EmptyString => is_space c
  | String _ s' => ends_with_space s'
  end.

(** No two consecutive spaces in [s]. *)
Fixpoint no_double_space (s : string) : bool :=
  match s with
  | EmptyString => true
  | String c s' =>
      negb (is_space c && starts_with_space s') && no_double_space s'
  end.

(** *** The URL-safe base-64 alphabet, [A-Za-z0-9_-] *)

Definition url_safe_char (c : ascii) : bool :=
  let n := nat_of_ascii c in
  ((65 <=? n) && (n <=? 90) || (97 <=? n) && (n <=? 122)
   || (48 <=? n) && (n <=? 57) || (n =? 95) || (n =? 45))%nat.

Fixpoint all_chars (p : ascii -> bool) (s : string) : bool :=
  match s with
  | EmptyString => true
  | String c s' => p c && all_chars p s'
  end.

(** A well-formed fingerprint. *)
Definition is_fingerprint (s : string) : Prop :=
  String.length s = 16%nat /\ all_chars url_safe_char s = true.

(** *** The chained digest *)

Definition digest (m : list byte) : list byte := SHA224.sum224 m.

(** The first [n] characters of [s]. *)
Definition first_chars (n : nat) (s : string) : string := substring 0 n s.

(** Step c: the fingerprint of a running digest. *)
Definition fingerprint (running : list byte) : string :=
  first_chars 16 (Base64.EncodeToString running).

(** The messages [m1] and [m2] are different and have the same
    fingerprint. *)
Definition collide (m1 m2 : list byte) : Prop :=
  m1 <> m2 /\ fingerprint (digest m1) = fingerprint (digest m2).

(** Exchange the elements at [i] and [j]. *)
Definition swap_at {A : Type} (i j : nat) (l : list A) : list A :=
  match l !! i, l !! j with
  | Some a, Some b => <[i := b]> (<[j := a]> l)
  | _, _ => l
  end.

(** The fragments [fs], each after one space. *)
Fixpoint spaced (fs : list string) : string :=
  match fs with
  | [] => EmptyString
  | f :: fs' => " " +:+ f +:+ spaced fs'
  end.

(** Keep a fragment unless it is empty. *)
Definition unless_empty (s : string) : list string :=
  if is_empty s then [] else [s].

Section RulesSpec.

Context {MatchCriteria : Type} `{!Renderer MatchCriteria}.

(** The sentinel prefix fragment the hashed rendering uses. *)
Definition sentinel : string := "HASH".

(** The text of a rule the chain digest is computed over. *)
Definition hashed_text (name : string) (r : Rule) : string :=
  RenderAppend r name sentinel.

(** Step 1: the seed, the digest of the chain name alone. *)
Definition seed (name : string) : list byte :=
  digest (bytes_of_string name).

(** Step 2b: the digest of the running digest followed by the rendered
    rule. *)
Definition chain_step (name : string) (running : list byte) (r : Rule)
  : list byte :=
  digest (running ++ bytes_of_string (hashed_text name r)).

(** Steps 2 and 3: one fingerprint per rule, in rule order. *)
Fixpoint fingerprints (name : string) (running : list byte)
         (rules : list Rule) : list string :=
  match rules with
  | [] => []
  | r :: rest =>
      let running' := chain_step name running r in
      fingerprint running' :: fingerprints name running' rest
  end.

Definition RuleHashes_spec (c : Chain) : list string :=
  fingerprints (Chain_Name c) (seed (Chain_Name c)) (Chain_Rules c).

(** The running digest after the first [k] rules. *)
Definition running_after (name : string) (running : list byte)
           (rules : list Rule) (k : nat) : list byte :=
  fold_left (chain_step name) (take k rules) running.

(** The message digested for the rule at position [p] of a chain: the
    running digest before the rule, then the bytes of its hashed text. *)
Definition digested (name : string) (rules : list Rule) (p : nat)
  : list byte :=
  match rules !! p with
  | Some r =>
      running_after name (seed name) rules p
      ++ bytes_of_string (hashed_text name r)
  | None => []
  end.

(** [RuleHashes] returns the hashes [hs]. *)
Definition returns_hashes (level : Level) (c : Chain) (hs : list string)
  : Prop :=
  fst <$> RuleHashes level c = Some hs.

(** The comment-match fragment of a rule. *)
Definition comment_fragment (comment : string) : string :=
  "-m comment --comment " +:+ String "034" comment
  +:+ String "034" EmptyString.

(** The optional fragments of a rendered rule, in their fixed order. *)
Definition optional_fragments (r : Rule) (prefixFragment : string)
  : list string :=
  unless_empty prefixFragment
  ++ (if is_empty (Rule_Comment r) then []
      else [comment_fragment (Rule_Comment r)])
  ++ unless_empty (Render (Rule_Match r))
  ++ unless_empty (ToFragment (Rule_Action r)).

End RulesSpec.

(* ===================================================================== *)
(** ** A match renderer to run the code with *)
(* ===================================================================== *)

(** Modelled from the spec: the match criteria, declared outside this
    file, are an opaque renderer of a textual match fragment; here a value
    that holds the text it renders to. *)
Record TextMatch := { TextMatch_text : string }.

#[export] Instance TextMatch_Render : Renderer TextMatch := TextMatch_text.

Definition accept_rule : @Rule TextMatch :=
  {| Rule_Match := {| TextMatch_text := EmptyString |};
     Rule_Action := MkAction Build_AcceptAction;
     Rule_Comment := EmptyString |}.

Definition return_rule : @Rule TextMatch :=
  {| Rule_Match := {| TextMatch_text := EmptyString |};
     Rule_Action := MkAction Build_ReturnAction;
     Rule_Comment := EmptyString |}.

Definition jump_return_rule : @Rule TextMatch :=
  {| Rule_Match := {| TextMatch_text := EmptyString |};
     Rule_Action := MkAction {| JumpAction_Target := "RETURN" |};
     Rule_Comment := EmptyString |}.

Definition mark_rule : @Rule TextMatch :=
  {| Rule_Match := {| TextMatch_text := "-p tcp" |};
     Rule_Action := MkAction {| SetMarkAction_Mark := 0x10 |};
     Rule_Comment := "mark" |}.

Definition twin_rules : list (@Rule TextMatch) :=
  [jump_return_rule; return_rule].

Definition three_rules : list (@Rule TextMatch) :=
  [accept_rule; mark_rule; return_rule].

(** A digest as hexadecimal text, two digits a byte. *)
Definition hex_of_bytes (bs : list byte) : string :=
  fold_right
    (fun b acc =>
       String (digit (byte_to_Z b / 16))
              (String (digit (byte_to_Z b mod 16)) acc))
    EmptyString bs.

(* ===================================================================== *)
(** ** What [RuleHashes] logs *)
(* ===================================================================== *)

Section LogSpec.

Context {MatchCriteria : Type} `{!Renderer MatchCriteria}.

(** The entry logged for the rule [r] at index [ii], hashed to [h]. *)
Definition hashed_rule_entry (name : string) (ii : nat) (r : Rule)
           (h : string) : LogEntry :=
  {| LogEntry_ruleFragment := RenderAppend r name "HASH";
     LogEntry_action := Rule_Action r;
     LogEntry_position := ii;
     LogEntry_chain := name;
     LogEntry_hash := h |}.

(** The entries for the rules from index [ii] on, in order. *)
Fixpoint log_entries (name : string) (running : list byte) (ii : nat)
         (rules : list Rule) : list LogEntry :=
  match rules with
  | [] => []
  | r :: rest =>
      let running' := chain_step name running r in
      hashed_rule_entry name ii r (fingerprint running')
      :: log_entries name running' (S ii) rest
  end.

End LogSpec.

(* ===================================================================== *)
(** ** The actions of this file, and tidy text *)
(* ===================================================================== *)

(** An [Action] value of one of the nine types declared here. *)
Inductive builtin_action : Action -> Prop :=
| builtin_Goto (g : GotoAction) : builtin_action (MkAction g)
| builtin_Jump (g : JumpAction) : builtin_action (MkAction g)
| builtin_Return (r : ReturnAction) : builtin_action (MkAction r)
| builtin_Drop (g : DropAction) : builtin_action (MkAction g)
| builtin_Accept (g : AcceptAction) : builtin_action (MkAction g)
| builtin_DNAT (g : DNATAction) : builtin_action (MkAction g)
| builtin_Masq (g : MasqAction) : builtin_action (MkAction g)
| builtin_ClearMark (c : ClearMarkAction) : builtin_action (MkAction c)
| builtin_SetMark (c : SetMarkAction) : builtin_action (MkAction c).

(** Text that is not empty, has no space at either end and no two
    consecutive spaces. *)
Definition tidy (s : string) : bool :=
  negb (is_empty s) && negb (starts_with_space s)
  && negb (ends_with_space s) && no_double_space s.

(** [ruleNum] fits the type [int]. *)
Definition is_int (x : Z) : Prop := - 2 ^ 63 <= x < 2 ^ 63.

(** The words of a text: its pieces between single spaces, as
    [strings.Split(s, " ")] gives them; two spaces in a row, or a space at
    an end, give an empty word. *)
Fixpoint split_spaces (s : string) : list string :=
  match s with
  | EmptyString => [EmptyString]
  | String c s' =>
      if is_space c then EmptyString :: split_spaces s'
      else
        match split_spaces s' with
        | w :: ws => String c w :: ws
        | [] => [String c EmptyString]
        end
  end.

(** A character [0] to [9]. *)
Definition is_decimal_digit (c : ascii) : bool :=
  match dec_digit_value c with
  | Some _ => true
  | None => false
  end.

(* ===================================================================== *)
(** ** Facts about strings *)
(* ===================================================================== *)

Lemma is_empty_true (s : string) : is_empty s = true <-> s = EmptyString.
Proof. destruct s; simpl; split; congruence. Qed.

Lemma is_empty_false (s : string) : is_empty s = false <-> s <> EmptyString.
Proof. destruct s; simpl; split; congruence. Qed.

Lemma string_app_cons (x : ascii) (a b : string) :
  String x a +:+ b = String x (a +:+ b).
Proof. reflexivity. Qed.

Lemma string_app_nil_l (b : string) : EmptyString +:+ b = b.
Proof. reflexivity. Qed.

Lemma string_app_assoc (a b c : string) : (a +:+ b) +:+ c = a +:+ (b +:+ c).
Proof.
  induction a as [|x a IH]; [reflexivity |].
  rewrite !string_app_cons. now rewrite IH.
Qed.

Lemma string_app_nil_r (a : string) : a +:+ EmptyString = a.
Proof.
  induction a as [|x a IH]; [reflexivity |].
  rewrite string_app_cons. now rewrite IH.
Qed.

Lemma string_app_inv_head (a b c : string) : a +:+ b = a +:+ c -> b = c.
Proof.
  induction a as [|x a IH]; intros H; [exact H |].
  rewrite !string_app_cons in H. injection H as H. now apply IH.
Qed.

Lemma bytes_of_string_inj (s t : string) :
  bytes_of_string s = bytes_of_string t -> s = t.
Proof.
  unfold bytes_of_string. intros H.
  rewrite <- (string_of_list_byte_of_string s).
  rewrite <- (string_of_list_byte_of_string t).
  now rewrite H.
Qed.

(* ===================================================================== *)
(** ** fmt: what [%x] and [%d] print *)
(* ===================================================================== *)

Section FmtDigits.

Variable dv : ascii -> option Z.
Variable base : Z.
Hypothesis base_gt_1 : 1 < base.
Hypothesis dv_digit : forall d, 0 <= d < base -> dv (digit d) = Some d.
Hypothesis digit_nonzero :
  forall d, 1 <= d < base -> digit d <> "0"%char.

Lemma fmt_digits_value (fuel : nat) :
  forall u buf,
    0 <= u < base ^ Z.of_nat fuel ->
    digits_value dv base 0 (fmt_digits fuel base u buf)
    = digits_value dv base u buf.
Proof.
  induction fuel as [|fuel IH]; intros u buf Hu.
  - simpl in *. assert (u = 0) by lia. now subst.
  - cbn [fmt_digits]. destruct (Z.leb_spec base u) as [Hge | Hlt].
    + rewrite IH.
      * cbn [digits_value]. rewrite dv_digit by (apply Z.mod_pos_bound; lia).
        f_equal. rewrite (Z.div_mod u base) at 3 by lia. lia.
      * split; [apply Z.div_pos; lia |].
        apply Z.div_lt_upper_bound; [lia |].
        rewrite Nat2Z.inj_succ, Z.pow_succ_r in Hu by lia. lia.
    + cbn [digits_value]. rewrite dv_digit by lia. f_equal.
Qed.

Lemma fmt_digits_head (fuel : nat) :
  forall u buf,
    0 < u < base ^ Z.of_nat fuel ->
    exists d rest,
      1 <= d < base /\ fmt_digits fuel base u buf = String (digit d) rest.
Proof.
  induction fuel as [|fuel IH]; intros u buf Hu.
  - simpl in Hu. lia.
  - cbn [fmt_digits]. destruct (Z.leb_spec base u) as [Hge | Hlt].
    + apply IH. split.
      * apply Z.div_str_pos. lia.
      * apply Z.div_lt_upper_bound; [lia |].
        rewrite Nat2Z.inj_succ, Z.pow_succ_r in Hu by lia. lia.
    + exists u, buf. split; [lia | reflexivity].
Qed.

(** A number below [base ^ 64] is printed as its digits, unpadded. *)
Lemma fmtInteger_repr (u : Z) :
  0 <= u < base ^ 64 ->
  number_value dv base (fmtInteger base u) = Some u
  /\ natural_width (fmtInteger base u) = true.
Proof.
  intros Hu. unfold fmtInteger.
  destruct (Z.ltb_spec u 0) as [Hneg | _]; [lia |].
  destruct (Z.eq_dec u 0) as [-> | Hnz].
  - cbn [fmt_digits]. destruct (Z.leb_spec base 0); [lia |].
    unfold number_value. cbn [is_empty digits_value].
    rewrite dv_digit by lia. split; reflexivity.
  - destruct (fmt_digits_head 64 u EmptyString) as (d & rest & Hd & E).
    { change (Z.of_nat 64) with 64. lia. }
    split.
    + unfold number_value. rewrite E at 1. cbn [is_empty].
      rewrite fmt_digits_value by (change (Z.of_nat 64) with 64; lia).
      reflexivity.
    + rewrite E. unfold natural_width.
      pose proof (digit_nonzero d Hd) as Hne.
      destruct (digit d) as [[] [] [] [] [] [] [] []]; try reflexivity.
      destruct rest; [reflexivity | congruence].
Qed.

End FmtDigits.

Lemma hex_digit_of_digit (d : Z) :
  0 <= d < 16 -> hex_digit_value (digit d) = Some d.
Proof.
  intros H.
  assert (d = 0 \/ d = 1 \/ d = 2 \/ d = 3 \/ d = 4 \/ d = 5 \/ d = 6
          \/ d = 7 \/ d = 8 \/ d = 9 \/ d = 10 \/ d = 11 \/ d = 12
          \/ d = 13 \/ d = 14 \/ d = 15) as C by lia.
  repeat destruct C as [-> | C]; try subst d; reflexivity.
Qed.

Lemma dec_digit_of_digit (d : Z) :
  0 <= d < 10 -> dec_digit_value (digit d) = Some d.
Proof.
  intros H.
  assert (d = 0 \/ d = 1 \/ d = 2 \/ d = 3 \/ d = 4 \/ d = 5 \/ d = 6
          \/ d = 7 \/ d = 8 \/ d = 9) as C by lia.
  repeat destruct C as [-> | C]; try subst d; reflexivity.
Qed.

Lemma digit_not_zero (d : Z) : 1 <= d < 16 -> digit d <> "0"%char.
Proof.
  intros H.
  assert (d = 1 \/ d = 2 \/ d = 3 \/ d = 4 \/ d = 5 \/ d = 6
          \/ d = 7 \/ d = 8 \/ d = 9 \/ d = 10 \/ d = 11 \/ d = 12
          \/ d = 13 \/ d = 14 \/ d = 15) as C by lia.
  repeat destruct C as [-> | C]; try subst d; discriminate.
Qed.

(** [%x] prints a 64-bit word in lower-case hexadecimal, unpadded. *)
Lemma fmt_x_repr (u : Z) : 0 <= u < 2 ^ 64 -> is_hex_repr (fmt_x u) u.
Proof.
  intros H. apply fmtInteger_repr.
  - lia.
  - apply hex_digit_of_digit.
  - apply digit_not_zero.
  - lia.
Qed.

(** [%d] prints a number that is not negative in decimal, unpadded. *)
Lemma fmt_d_repr (u : Z) : 0 <= u < 2 ^ 64 -> is_dec_repr (fmt_d u) u.
Proof.
  intros H. apply fmtInteger_repr.
  - lia.
  - apply dec_digit_of_digit.
  - intros d Hd. apply digit_not_zero. lia.
  - lia.
Qed.

(* ===================================================================== *)
(** ** Doubled spaces *)
(* ===================================================================== *)

Lemma starts_with_space_app (a b : string) :
  starts_with_space (a +:+ b)
  = if is_empty a then starts_with_space b else starts_with_space a.
Proof. destruct a; reflexivity. Qed.

Lemma ends_with_space_app (a b : string) :
  ends_with_space (a +:+ b)
  = if is_empty b then ends_with_space a else ends_with_space b.
Proof.
  induction a as [|x a IH].
  - rewrite string_app_nil_l. destruct b; reflexivity.
  - rewrite string_app_cons. cbn [ends_with_space]. rewrite IH.
    destruct a as [|y a].
    + rewrite string_app_nil_l. destruct b; reflexivity.
    + rewrite string_app_cons. destruct b; reflexivity.
Qed.

Lemma no_double_space_app (a b : string) :
  no_double_space (a +:+ b)
  = no_double_space a && no_double_space b
    && negb (ends_with_space a && starts_with_space b).
Proof.
  induction a as [|x a IH].
  - rewrite string_app_nil_l. cbn. now rewrite andb_true_r.
  - rewrite string_app_cons. cbn [no_double_space]. rewrite IH.
    rewrite starts_with_space_app.
    destruct a as [|y a].
    + cbn. destruct (is_space x), (starts_with_space b), (no_double_space b);
        reflexivity.
    + cbn [is_empty starts_with_space ends_with_space no_double_space].
      destruct (is_space x), (is_space y), (starts_with_space a),
        (no_double_space a), (no_double_space b); cbn; try reflexivity;
        destruct (ends_with_space (String y a)), (starts_with_space b);
        reflexivity.
Qed.

(* ===================================================================== *)
(** ** Actions *)
(* ===================================================================== *)

Lemma uint16_fits (x : Z) : is_uint16 x -> 0 <= x < 2 ^ 64.
Proof. unfold is_uint16. lia. Qed.

Lemma uint32_fits (x : Z) : is_uint32 x -> 0 <= x < 2 ^ 64.
Proof. unfold is_uint32. lia. Qed.

(** C8: every [Action] implementation renders exactly its fragment:
    [--goto t], [--jump t], [--jump RETURN], [--jump DROP], [--jump ACCEPT],
    [--jump DNAT --to-destination addr:port], [--jump MASQUERADE],
    [--jump MARK --set-mark 0/m] and [--jump MARK --set-mark m/m] with the
    mark [m] in hexadecimal; a mark of 16 gives [10/10] and [0/10]. *)
Theorem ToFragment_variants (t addr : string) (port m : Z) :
  is_uint16 port ->
  is_uint32 m ->
  ToFragment {| GotoAction_Target := t |} = "--goto " +:+ t
  /\ ToFragment {| JumpAction_Target := t |} = "--jump " +:+ t
  /\ ToFragment Build_ReturnAction = "--jump RETURN"
  /\ ToFragment Build_DropAction = "--jump DROP"
  /\ ToFragment Build_AcceptAction = "--jump ACCEPT"
  /\ (exists d, is_dec_repr d port
        /\ ToFragment {| DNATAction_DestAddr := addr;
                         DNATAction_DestPort := port |}
           = "--jump DNAT --to-destination " +:+ addr +:+ ":" +:+ d)
  /\ ToFragment Build_MasqAction = "--jump MASQUERADE"
  /\ (exists h, is_hex_repr h m
        /\ ToFragment {| ClearMarkAction_Mark := m |}
           = "--jump MARK --set-mark 0/" +:+ h)
  /\ (exists h, is_hex_repr h m
        /\ ToFragment {| SetMarkAction_Mark := m |}
           = "--jump MARK --set-mark " +:+ h +:+ "/" +:+ h)
  /\ ToFragment {| SetMarkAction_Mark := 0x10 |}
     = "--jump MARK --set-mark 10/10"
  /\ ToFragment {| ClearMarkAction_Mark := 0x10 |}
     = "--jump MARK --set-mark 0/10".
Proof.
  intros Hport Hm.
  repeat match goal with |- _ /\ _ => split end; try reflexivity.
  - exists (fmt_d port). split; [| reflexivity].
    apply fmt_d_repr, uint16_fits, Hport.
  - exists (fmt_x m). split; [| reflexivity].
    apply fmt_x_repr, uint32_fits, Hm.
  - exists (fmt_x m). split; [| reflexivity].
    apply fmt_x_repr, uint32_fits, Hm.
Qed.

Lemma ToFragment_variants_witness :
  is_uint16 8080 /\ is_uint32 0xff00
  /\ ToFragment {| GotoAction_Target := "cali-fw" |} = "--goto cali-fw"
  /\ ToFragment {| JumpAction_Target := "cali-fw" |} = "--jump cali-fw"
  /\ (exists d, is_dec_repr d 8080
        /\ ToFragment {| DNATAction_DestAddr := "10.0.0.1";
                         DNATAction_DestPort := 8080 |}
           = "--jump DNAT --to-destination " +:+ "10.0.0.1" +:+ ":" +:+ d)
  /\ (exists h, is_hex_repr h 0xff00
        /\ ToFragment {| SetMarkAction_Mark := 0xff00 |}
           = "--jump MARK --set-mark " +:+ h +:+ "/" +:+ h).
Proof.
  assert (H16 : is_uint16 8080) by (unfold is_uint16; lia).
  assert (H32 : is_uint32 0xff00) by (unfold is_uint32; lia).
  destruct (ToFragment_variants "cali-fw" "10.0.0.1" 8080 0xff00 H16 H32)
    as (HG & HJ & _ & _ & _ & HD & _ & _ & HS & _).
  split; [exact H16 |]. split; [exact H32 |].
  split; [exact HG |]. split; [exact HJ |]. split; [exact HD | exact HS].
Defined.

(** C5, as the code has it: the mark of [SetMark] and of [ClearMark] is
    rendered in lower-case hexadecimal with no [0x] and no zero padding;
    the destination port of [DNAT] is rendered in decimal, unpadded. *)
Theorem numeric_fields_rendering (addr : string) (port m : Z) :
  is_uint16 port ->
  is_uint32 m ->
  (exists h, is_hex_repr h m
     /\ ToFragment {| SetMarkAction_Mark := m |}
        = "--jump MARK --set-mark " +:+ h +:+ "/" +:+ h)
  /\ (exists h, is_hex_repr h m
        /\ ToFragment {| ClearMarkAction_Mark := m |}
           = "--jump MARK --set-mark 0/" +:+ h)
  /\ (exists d, is_dec_repr d port
        /\ ToFragment {| DNATAction_DestAddr := addr;
                         DNATAction_DestPort := port |}
           = "--jump DNAT --to-destination " +:+ addr +:+ ":" +:+ d).
Proof.
  intros Hport Hm. split; [| split].
  - exists (fmt_x m). split; [| reflexivity].
    apply fmt_x_repr, uint32_fits, Hm.
  - exists (fmt_x m). split; [| reflexivity].
    apply fmt_x_repr, uint32_fits, Hm.
  - exists (fmt_d port). split; [| reflexivity].
    apply fmt_d_repr, uint16_fits, Hport.
Qed.

Lemma numeric_fields_rendering_witness :
  is_uint16 255 /\ is_uint32 0xdeadbeef
  /\ ((exists h, is_hex_repr h 0xdeadbeef
         /\ ToFragment {| SetMarkAction_Mark := 0xdeadbeef |}
            = "--jump MARK --set-mark " +:+ h +:+ "/" +:+ h)
      /\ (exists h, is_hex_repr h 0xdeadbeef
            /\ ToFragment {| ClearMarkAction_Mark := 0xdeadbeef |}
               = "--jump MARK --set-mark 0/" +:+ h)
      /\ (exists d, is_dec_repr d 255
            /\ ToFragment {| DNATAction_DestAddr := "10.0.0.1";
                             DNATAction_DestPort := 255 |}
               = "--jump DNAT --to-destination " +:+ "10.0.0.1" +:+ ":"
                 +:+ d)).
Proof.
  assert (H16 : is_uint16 255) by (unfold is_uint16; lia).
  assert (H32 : is_uint32 0xdeadbeef) by (unfold is_uint32; lia).
  split; [exact H16 |]. split; [exact H32 |].
  exact (numeric_fields_rendering "10.0.0.1" 255 0xdeadbeef H16 H32).
Defined.

(** C5 fails for the port: port 255 is rendered [255], which is not the
    hexadecimal text of 255. *)
Lemma DNAT_port_counterexample :
  ToFragment {| DNATAction_DestAddr := "10.0.0.1";
                DNATAction_DestPort := 255 |}
  = "--jump DNAT --to-destination 10.0.0.1:255"
  /\ ~ (exists h, is_hex_repr h 255
          /\ ToFragment {| DNATAction_DestAddr := "10.0.0.1";
                           DNATAction_DestPort := 255 |}
             = "--jump DNAT --to-destination 10.0.0.1:" +:+ h).
Proof.
  split; [reflexivity |].
  intros (h & [Hval _] & E).
  change (ToFragment {| DNATAction_DestAddr := "10.0.0.1";
                        DNATAction_DestPort := 255 |})
    with ("--jump DNAT --to-destination 10.0.0.1:" +:+ "255") in E.
  apply string_app_inv_head in E. subst h.
  vm_compute in Hval. discriminate Hval.
Qed.

(* ===================================================================== *)
(** ** Rendering rules *)
(* ===================================================================== *)

Lemma Join_cons (x : string) (fs : list string) :
  Join (x :: fs) " " = x +:+ spaced fs.
Proof.
  revert x. induction fs as [|y fs IH]; intros x.
  - cbn. now rewrite string_app_nil_r.
  - change (Join (x :: y :: fs) " ")
      with (x +:+ " " +:+ Join (y :: fs) " ").
    now rewrite IH.
Qed.

Lemma unless_empty_nonempty (s : string) :
  Forall (fun f => f <> EmptyString) (unless_empty s).
Proof.
  unfold unless_empty. destruct s; cbn; constructor; [discriminate | constructor].
Qed.

Section Rendering.

Context {MatchCriteria : Type} `{!Renderer MatchCriteria}.

(** [renderInner] appends the optional fragments and joins. *)
Lemma renderInner_fragments (r : Rule) (fragments : list string)
      (prefixFragment : string) :
  renderInner r fragments prefixFragment
  = Join (fragments ++ optional_fragments r prefixFragment) " ".
Proof.
  unfold renderInner, optional_fragments, unless_empty, comment_fragment,
    fmt_s.
  destruct (is_empty prefixFragment), (is_empty (Rule_Comment r)),
    (is_empty (Render (Rule_Match r))),
    (is_empty (ToFragment (Rule_Action r)));
    cbn [negb]; rewrite <- ?app_assoc, ?app_nil_r; reflexivity.
Qed.

Lemma optional_fragments_nonempty (r : Rule) (prefixFragment : string) :
  Forall (fun f => f <> EmptyString) (optional_fragments r prefixFragment).
Proof.
  unfold optional_fragments. repeat apply Forall_app_2.
  - apply unless_empty_nonempty.
  - destruct (is_empty (Rule_Comment r)); constructor;
      [discriminate | constructor].
  - apply unless_empty_nonempty.
  - apply unless_empty_nonempty.
Qed.

(** C6: the renderers join, with single spaces, the verb, the chain
    name, for [RenderReplace] the rule number in decimal, then the
    prefix fragment, the comment-match fragment, the match fragment and
    the action fragment, each of these four at most once and only when it
    is not empty. *)
Theorem render_fragment_order (r : Rule) (chainName prefixFragment : string)
        (ruleNum : Z) :
  1 <= ruleNum < 2 ^ 63 ->
  RenderAppend r chainName prefixFragment
  = Join (["-A"; chainName] ++ optional_fragments r prefixFragment) " "
  /\ RenderInsert r chainName prefixFragment
     = Join (["-I"; chainName] ++ optional_fragments r prefixFragment) " "
  /\ (exists num, is_dec_repr num ruleNum
        /\ RenderReplace r chainName ruleNum prefixFragment
           = Join (["-R"; chainName; num]
                   ++ optional_fragments r prefixFragment) " ")
  /\ optional_fragments r prefixFragment
     = (if is_empty prefixFragment then [] else [prefixFragment])
       ++ (if is_empty (Rule_Comment r) then []
           else ["-m comment --comment " +:+ String "034" (Rule_Comment r)
                 +:+ String "034" EmptyString])
       ++ (if is_empty (Render (Rule_Match r)) then []
           else [Render (Rule_Match r)])
       ++ (if is_empty (ToFragment (Rule_Action r)) then []
           else [ToFragment (Rule_Action r)])
  /\ Forall (fun f => f <> EmptyString)
            (optional_fragments r prefixFragment).
Proof.
  intros Hnum. split; [| split; [| split; [| split]]].
  - apply renderInner_fragments.
  - apply renderInner_fragments.
  - exists (fmt_d ruleNum). split.
    + apply fmt_d_repr. lia.
    + apply renderInner_fragments.
  - reflexivity.
  - apply optional_fragments_nonempty.
Qed.


(** C9, as the code has it: a rule with no match text, no comment and an
    action fragment that is not empty is appended as
    [-A <chain> <action fragment>]; the text has no two consecutive
    spaces exactly when the chain name is not empty, neither starts nor
    ends with a space and has no two consecutive spaces, and the action
    fragment does not start with a space and has no two consecutive
    spaces. *)
Theorem render_append_plain (r : Rule) (chainName : string) :
  Render (Rule_Match r) = EmptyString ->
  Rule_Comment r = EmptyString ->
  ToFragment (Rule_Action r) <> EmptyString ->
  RenderAppend r chainName EmptyString
  = "-A " +:+ chainName +:+ " " +:+ ToFragment (Rule_Action r)
  /\ no_double_space (RenderAppend r chainName EmptyString)
     = negb (is_empty chainName)
       && negb (starts_with_space chainName)
       && negb (ends_with_space chainName)
       && no_double_space chainName
       && negb (starts_with_space (ToFragment (Rule_Action r)))
       && no_double_space (ToFragment (Rule_Action r)).
Proof.
  intros Hmatch Hcomment Haction.
  assert (E : RenderAppend r chainName EmptyString
              = "-A " +:+ chainName +:+ " "
                +:+ ToFragment (Rule_Action r)).
  { unfold RenderAppend. rewrite renderInner_fragments.
    unfold optional_fragments, unless_empty.
    rewrite Hmatch, Hcomment.
    apply is_empty_false in Haction. rewrite Haction.
    cbn [is_empty app]. rewrite !Join_cons. cbn [spaced].
    now rewrite string_app_nil_r. }
  split; [exact E |].
  rewrite E.
  set (frag := ToFragment (Rule_Action r)).
  change ("-A " +:+ chainName +:+ " " +:+ frag)
    with (String "-" (String "A" (String " "
           (chainName +:+ String " " frag)))).
  cbn [no_double_space starts_with_space].
  change (is_space "-") with false. change (is_space "A") with false.
  change (is_space " ") with true.
  cbn [andb negb].
  rewrite starts_with_space_app, no_double_space_app.
  cbn [no_double_space starts_with_space is_empty].
  change (is_space " ") with true.
  destruct chainName as [|c chainName']; [reflexivity |].
  cbn [is_empty negb andb].
  destruct (starts_with_space (String c chainName')),
    (ends_with_space (String c chainName')),
    (no_double_space (String c chainName')),
    (starts_with_space frag), (no_double_space frag); reflexivity.
Qed.

End Rendering.

Lemma render_fragment_order_witness :
  1 <= 3 < 2 ^ 63
  /\ RenderAppend mark_rule "cali-INPUT" "--wait"
     = "-A cali-INPUT --wait -m comment --comment "
       +:+ String "034" "mark" +:+ String "034" " -p tcp"
       +:+ " --jump MARK --set-mark 10/10"
  /\ RenderInsert mark_rule "cali-INPUT" "--wait"
     = "-I cali-INPUT --wait -m comment --comment "
       +:+ String "034" "mark" +:+ String "034" " -p tcp"
       +:+ " --jump MARK --set-mark 10/10"
  /\ RenderReplace mark_rule "cali-INPUT" 3 "--wait"
     = "-R cali-INPUT 3 --wait -m comment --comment "
       +:+ String "034" "mark" +:+ String "034" " -p tcp"
       +:+ " --jump MARK --set-mark 10/10".
Proof.
  assert (Hnum : 1 <= 3 < 2 ^ 63) by lia.
  destruct (render_fragment_order mark_rule "cali-INPUT" "--wait" 3 Hnum)
    as (HA & HI & (num & Hrepr & HR) & _ & _).
  split; [exact Hnum |].
  split; [rewrite HA; reflexivity |].
  split; [rewrite HI; reflexivity |].
  reflexivity.
Defined.

Lemma render_append_plain_witness :
  Render (Rule_Match accept_rule) = EmptyString
  /\ Rule_Comment accept_rule = EmptyString
  /\ ToFragment (Rule_Action accept_rule) <> EmptyString
  /\ RenderAppend accept_rule "cali-INPUT" EmptyString
     = "-A cali-INPUT --jump ACCEPT"
  /\ no_double_space (RenderAppend accept_rule "cali-INPUT" EmptyString)
     = true.
Proof.
  assert (Hm : Render (Rule_Match accept_rule) = EmptyString)
    by reflexivity.
  assert (Hc : Rule_Comment accept_rule = EmptyString) by reflexivity.
  assert (Ha : ToFragment (Rule_Action accept_rule) <> EmptyString)
    by discriminate.
  destruct (render_append_plain accept_rule "cali-INPUT" Hm Hc Ha)
    as [E D].
  split; [exact Hm |]. split; [exact Hc |]. split; [exact Ha |].
  split; [rewrite E; reflexivity | rewrite D; reflexivity].
Defined.

(** C9 fails for an empty chain name: the two separators around it are
    adjacent. *)
Lemma render_append_plain_counterexample :
  Render (Rule_Match accept_rule) = EmptyString
  /\ Rule_Comment accept_rule = EmptyString
  /\ RenderAppend accept_rule EmptyString EmptyString
     = "-A  --jump ACCEPT"
  /\ no_double_space (RenderAppend accept_rule EmptyString EmptyString)
     = false.
Proof. repeat split. Qed.

(* ===================================================================== *)
(** ** Digests and their base-64 text *)
(* ===================================================================== *)

Lemma sum224_length (m : list byte) : length (SHA224.sum224 m) = 28%nat.
Proof. unfold SHA224.sum224. cbv zeta. rewrite !length_app. reflexivity. Qed.

Lemma digest_length (m : list byte) : length (digest m) = 28%nat.
Proof. apply sum224_length. Qed.

(** Induction on a list, three elements at a time. *)
Lemma list_ind3 {A : Type} (P : list A -> Prop) :
  P [] ->
  (forall a, P [a]) ->
  (forall a b, P [a; b]) ->
  (forall a b c l, P l -> P (a :: b :: c :: l)) ->
  forall l, P l.
Proof.
  intros H0 H1 H2 H3. fix IH 1.
  intros [|a [|b [|c l]]]; [exact H0 | apply H1 | apply H2 |].
  apply H3, IH.
Qed.

Lemma sextet_range (val n : Z) : 0 <= Base64.sextet val n < 64.
Proof.
  unfold Base64.sextet. change 0x3F with (Z.ones 6).
  rewrite Z.land_ones by lia. apply Z.mod_pos_bound. lia.
Qed.

Lemma encode_at_url_safe (i : Z) :
  0 <= i < 64 -> url_safe_char (Base64.encode_at i) = true.
Proof.
  intros Hi.
  assert (Hall : forallb (fun n => url_safe_char
                                     (Base64.encode_at (Z.of_nat n)))
                         (seq 0 64) = true) by (vm_compute; reflexivity).
  rewrite forallb_forall in Hall.
  rewrite <- (Z2Nat.id i) by lia. apply Hall.
  apply in_seq. lia.
Qed.

Lemma sextet_url_safe (val n : Z) :
  url_safe_char (Base64.encode_at (Base64.sextet val n)) = true.
Proof. apply encode_at_url_safe, sextet_range. Qed.

Lemma EncodeToString_url_safe (src : list byte) :
  all_chars url_safe_char (Base64.EncodeToString src) = true.
Proof.
  induction src as [| a | a b | a b c l IH] using list_ind3;
    cbn [Base64.EncodeToString all_chars]; cbv zeta;
    rewrite ?sextet_url_safe, ?IH; reflexivity.
Qed.

Lemma EncodeToString_length_ge (src : list byte) :
  (length src <= String.length (Base64.EncodeToString src))%nat.
Proof.
  induction src as [| a | a b | a b c l IH] using list_ind3;
    cbn [Base64.EncodeToString String.length length]; cbv zeta;
    cbn [String.length]; lia.
Qed.

Lemma first_chars_length (n : nat) :
  forall s, (n <= String.length s)%nat ->
            String.length (first_chars n s) = n.
Proof.
  unfold first_chars. induction n as [|n IH]; intros s Hs.
  - destruct s; reflexivity.
  - destruct s as [|c s]; cbn in Hs; [lia |].
    cbn [substring String.length]. rewrite IH by lia. reflexivity.
Qed.

Lemma first_chars_all (p : ascii -> bool) (n : nat) :
  forall s, all_chars p s = true -> all_chars p (first_chars n s) = true.
Proof.
  unfold first_chars. induction n as [|n IH]; intros s Hs.
  - destruct s; reflexivity.
  - destruct s as [|c s]; [reflexivity |].
    cbn [all_chars] in Hs. apply andb_true_iff in Hs as [Hc Hs].
    cbn [substring all_chars]. rewrite Hc, IH by exact Hs. reflexivity.
Qed.

(** The fingerprint of a 28-byte digest is well formed, and the code's
    slice of its base-64 text is in range. *)
Lemma fingerprint_well_formed (running : list byte) :
  length running = 28%nat -> is_fingerprint (fingerprint running).
Proof.
  intros Hlen. pose proof (EncodeToString_length_ge running) as Hge.
  split.
  - apply first_chars_length. lia.
  - apply first_chars_all, EncodeToString_url_safe.
Qed.

Lemma slice_to_fingerprint (running : list byte) :
  length running = 28%nat ->
  slice_to (Base64.EncodeToString running) HashLength
  = Some (fingerprint running).
Proof.
  intros Hlen. pose proof (EncodeToString_length_ge running) as Hge.
  unfold slice_to, HashLength.
  destruct (Nat.leb_spec 16 (String.length (Base64.EncodeToString running)));
    [reflexivity | lia].
Qed.

(* ===================================================================== *)
(** ** The loop of [RuleHashes] *)
(* ===================================================================== *)

Section Hashing.

Context {MatchCriteria : Type} `{!Renderer MatchCriteria}.

Lemma chain_step_length (name : string) (running : list byte) (r : Rule) :
  length (chain_step name running r) = 28%nat.
Proof. apply digest_length. Qed.

(** One turn of the loop: with the first [ii] hashes filled in, the turn
    for index [ii] does not panic, chains the digest and stores the
    fingerprint at [ii]. *)
Lemma hash_rule_step (level : Level) (name : string) (rule : Rule)
      (st : loop_state) (filled : list string) (n : nat) :
  st_hashes st = filled ++ replicate (S n) EmptyString ->
  exists st',
    hash_rule level name (length filled) rule st = Some st'
    /\ st_hash st' = chain_step name (st_hash st) rule
    /\ st_hashes st'
       = (filled ++ [fingerprint (chain_step name (st_hash st) rule)])
         ++ replicate n EmptyString.
Proof.
  intros Hhashes. unfold hash_rule. cbv zeta.
  change (Hash.Sum _ (take 0 (st_hash st)))
    with (chain_step name (st_hash st) rule).
  set (h := chain_step name (st_hash st) rule).
  rewrite (slice_to_fingerprint h) by apply chain_step_length.
  cbn [mbind option_bind].
  assert (Hstore : store_index (st_hashes st) (length filled)
                               (fingerprint h)
                   = Some ((filled ++ [fingerprint h])
                           ++ replicate n EmptyString)).
  { unfold store_index. rewrite Hhashes.
    destruct (Nat.ltb_spec (length filled)
                (length (filled ++ replicate (S n) EmptyString)))
      as [_ | Hge].
    - f_equal.
      rewrite <- (Nat.add_0_r (length filled)), insert_app_r.
      cbn [replicate]. now rewrite <- app_assoc.
    - rewrite length_app, length_replicate in Hge. lia. }
  rewrite Hstore. cbn [mbind option_bind].
  assert (Hread : ((filled ++ [fingerprint h])
                   ++ replicate n EmptyString) !! length filled
                  = Some (fingerprint h)).
  { rewrite <- app_assoc. now apply list_lookup_middle. }
  rewrite Hread.
  destruct (DebugLevel <=? level); cbn [mbind option_bind];
    eexists; (split; [reflexivity |]); split; reflexivity.
Qed.

(** The whole loop, from index [length filled] on. *)
Lemma range_rules_run (level : Level) (name : string) (rules : list Rule) :
  forall (st : loop_state) (filled : list string),
    st_hashes st = filled ++ replicate (length rules) EmptyString ->
    exists st',
      range_rules level name (length filled) rules st = Some st'
      /\ st_hashes st' = filled ++ fingerprints name (st_hash st) rules.
Proof.
  induction rules as [|rule rest IH]; intros st filled Hhashes.
  - exists st. split; [reflexivity |].
    cbn in *. exact Hhashes.
  - destruct (hash_rule_step level name rule st filled (length rest)
                Hhashes) as (st1 & Hstep & Hhash1 & Hhashes1).
    cbn [range_rules]. rewrite Hstep. cbn [mbind option_bind].
    destruct (IH st1 (filled ++ [fingerprint
                                   (chain_step name (st_hash st) rule)])
                Hhashes1) as (st' & Hrun & Hres).
    rewrite length_app, Nat.add_1_r in Hrun.
    exists st'. split; [exact Hrun |].
    rewrite Hres, Hhash1, <- app_assoc. reflexivity.
Qed.

(** [RuleHashes] never panics and returns the chained fingerprints. *)
Lemma RuleHashes_returns (level : Level) (c : Chain) :
  returns_hashes level c (RuleHashes_spec c).
Proof.
  unfold returns_hashes, RuleHashes. cbv zeta.
  match goal with
  | |- context [range_rules _ _ _ _ ?st0] =>
      destruct (range_rules_run level (Chain_Name c) (Chain_Rules c)
                  st0 []) as (st' & Hrun & Hres); [reflexivity |]
  end.
  cbn [length] in Hrun. rewrite Hrun. cbn [mbind option_bind].
  cbn [fmap option_fmap option_map fst]. rewrite Hres. reflexivity.
Qed.

(** *** The chained fingerprints, position by position *)

Lemma fingerprints_length (name : string) (rules : list Rule) :
  forall running, length (fingerprints name running rules) = length rules.
Proof.
  induction rules as [|r rest IH]; intros running;
    cbn [fingerprints length]; [| rewrite IH]; reflexivity.
Qed.

Lemma running_after_S (name : string) (running : list byte)
      (rules : list Rule) (k : nat) (r : Rule) :
  rules !! k = Some r ->
  running_after name running rules (S k)
  = chain_step name (running_after name running rules k) r.
Proof.
  intros Hk. unfold running_after.
  rewrite (take_S_r _ _ _ Hk), fold_left_app. reflexivity.
Qed.

Lemma running_after_length (name : string) (running : list byte)
      (rules : list Rule) (k : nat) :
  length running = 28%nat ->
  length (running_after name running rules k) = 28%nat.
Proof.
  intros Hlen. unfold running_after.
  generalize (take k rules). intros l. revert running Hlen.
  induction l as [|r l IH]; intros running Hlen; cbn; [exact Hlen |].
  apply IH, chain_step_length.
Qed.

Lemma fingerprints_lookup (name : string) (rules : list Rule) :
  forall running i r,
    rules !! i = Some r ->
    fingerprints name running rules !! i
    = Some (fingerprint (running_after name running rules (S i))).
Proof.
  induction rules as [|r0 rest IH]; intros running i r Hi.
  - discriminate Hi.
  - destruct i as [|i].
    + reflexivity.
    + cbn in Hi. cbn [fingerprints]. cbv zeta.
      change ((?x :: ?l) !! S i) with (l !! i).
      rewrite (IH _ _ _ Hi). reflexivity.
Qed.

Lemma fingerprints_well_formed (name : string) (rules : list Rule) :
  forall running, Forall is_fingerprint (fingerprints name running rules).
Proof.
  induction rules as [|r rest IH]; intros running; cbn [fingerprints];
    constructor.
  - apply fingerprint_well_formed, chain_step_length.
  - apply IH.
Qed.

(** Rules that render to the same hashed text give the same
    fingerprints. *)
Lemma fingerprints_same_text (name : string) (rules rules' : list Rule) :
  Forall2 (fun r r' => hashed_text name r = hashed_text name r')
          rules rules' ->
  forall running,
    fingerprints name running rules = fingerprints name running rules'.
Proof.
  induction 1 as [|r r' l l' Hr _ IH]; intros running; [reflexivity |].
  cbn [fingerprints]. cbv zeta.
  assert (E : chain_step name running r = chain_step name running r')
    by (unfold chain_step; now rewrite Hr).
  rewrite E. f_equal. apply IH.
Qed.

End Hashing.

(* ===================================================================== *)
(** ** Collisions *)
(* ===================================================================== *)

Lemma fingerprint_digest_eq_inv (m m' : list byte) :
  fingerprint (digest m) = fingerprint (digest m') ->
  m = m' \/ collide m m'.
Proof.
  intros H. destruct (List.list_eq_dec byte_eq_dec m m') as [E | N].
  - left. exact E.
  - right. split; assumption.
Qed.

Lemma digest_eq_inv (m m' : list byte) :
  digest m = digest m' -> m = m' \/ collide m m'.
Proof. intros H. apply fingerprint_digest_eq_inv. now rewrite H. Qed.

Lemma collide_irrefl (m : list byte) : ~ collide m m.
Proof. intros [Hne _]. now apply Hne. Qed.

Lemma chain_input_inj (running running' : list byte) (t t' : string) :
  length running = length running' ->
  running ++ bytes_of_string t = running' ++ bytes_of_string t' ->
  running = running' /\ t = t'.
Proof.
  intros Hlen H. apply app_inj_1 in H as [H1 H2]; [| exact Hlen].
  split; [exact H1 | now apply bytes_of_string_inj].
Qed.

Lemma swap_at_facts {A : Type} (l : list A) (i j : nat) (a b : A) :
  i <> j ->
  l !! i = Some a ->
  l !! j = Some b ->
  swap_at i j l !! i = Some b
  /\ swap_at i j l !! j = Some a
  /\ (forall k, k <> i -> k <> j -> swap_at i j l !! k = l !! k)
  /\ length (swap_at i j l) = length l
  /\ (forall n, (n <= i)%nat -> (n <= j)%nat ->
                take n (swap_at i j l) = take n l).
Proof.
  intros Hij Hi Hj. unfold swap_at. rewrite Hi, Hj.
  pose proof (lookup_lt_Some _ _ _ Hi) as Hil.
  pose proof (lookup_lt_Some _ _ _ Hj) as Hjl.
  repeat split.
  - apply list_lookup_insert_eq. now rewrite length_insert.
  - rewrite list_lookup_insert_ne by exact Hij.
    now apply list_lookup_insert_eq.
  - intros k Hki Hkj. rewrite !list_lookup_insert_ne by congruence.
    reflexivity.
  - now rewrite !length_insert.
  - intros n Hni Hnj. now rewrite !take_insert_ge by assumption.
Qed.

Section Chaining.

Context {MatchCriteria : Type} `{!Renderer MatchCriteria}.

Lemma digested_lookup (name : string) (rules : list Rule) (p : nat)
      (r : Rule) :
  rules !! p = Some r ->
  digested name rules p
  = running_after name (seed name) rules p
    ++ bytes_of_string (hashed_text name r).
Proof. intros H. unfold digested. now rewrite H. Qed.

(** The running digest after the rule at [p] is the digest of the message
    digested for it. *)
Lemma running_after_digested (name : string) (rules : list Rule) (p : nat)
      (r : Rule) :
  rules !! p = Some r ->
  running_after name (seed name) rules (S p)
  = digest (digested name rules p).
Proof.
  intros H. rewrite (running_after_S _ _ _ _ _ H), (digested_lookup _ _ _ _ H).
  reflexivity.
Qed.

Lemma running_after_seed_length (name : string) (rules : list Rule)
      (k : nat) :
  length (running_after name (seed name) rules k) = 28%nat.
Proof. apply running_after_length, digest_length. Qed.

Lemma digested_inj (name name' : string) (rules rules' : list Rule)
      (p : nat) (r r' : Rule) :
  rules !! p = Some r ->
  rules' !! p = Some r' ->
  digested name rules p = digested name' rules' p ->
  running_after name (seed name) rules p
  = running_after name' (seed name') rules' p
  /\ hashed_text name r = hashed_text name' r'.
Proof.
  intros Hr Hr' H.
  rewrite (digested_lookup _ _ _ _ Hr), (digested_lookup _ _ _ _ Hr') in H.
  apply chain_input_inj in H; [exact H |].
  now rewrite !running_after_seed_length.
Qed.

(** The message digested at [p] is made from the first [p + 1] rules. *)
Lemma digested_prefix (name : string) (rules rules' : list Rule) (p : nat) :
  take (S p) rules = take (S p) rules' ->
  digested name rules p = digested name rules' p.
Proof.
  intros Htake. unfold digested, running_after.
  rewrite <- (lookup_take_lt rules (S p) p) by lia.
  rewrite <- (lookup_take_lt rules' (S p) p) by lia.
  replace (take p rules) with (take p (take (S p) rules))
    by (rewrite take_take; f_equal; lia).
  replace (take p rules') with (take p (take (S p) rules'))
    by (rewrite take_take; f_equal; lia).
  now rewrite Htake.
Qed.

(** When two chains have the same running digest after [k] rules, the
    names and the hashed texts of the first [k] rules are equal, or the
    two names collide, or the messages digested at a position before [k]
    do. *)
Lemma running_after_eq_inv (name name' : string)
      (rules rules' : list Rule) :
  forall k,
    (k <= length rules)%nat ->
    (k <= length rules')%nat ->
    running_after name (seed name) rules k
    = running_after name' (seed name') rules' k ->
    collide (bytes_of_string name) (bytes_of_string name')
    \/ (exists p, (p < k)%nat
                  /\ collide (digested name rules p)
                             (digested name' rules' p))
    \/ (name = name'
        /\ forall i r r',
             (i < k)%nat -> rules !! i = Some r -> rules' !! i = Some r' ->
             hashed_text name r = hashed_text name' r').
Proof.
  induction k as [|k IH]; intros Hk Hk' Heq.
  - change (seed name = seed name') in Heq. unfold seed in Heq.
    apply digest_eq_inv in Heq as [Heq | Hcol]; [| now left].
    right. right. split; [now apply bytes_of_string_inj |]. intros; lia.
  - destruct (lookup_lt_is_Some_2 rules k) as [r Hr]; [lia |].
    destruct (lookup_lt_is_Some_2 rules' k) as [r' Hr']; [lia |].
    rewrite (running_after_digested _ _ _ _ Hr),
      (running_after_digested _ _ _ _ Hr') in Heq.
    apply digest_eq_inv in Heq as [Heq | Hcol].
    2: { right. left. exists k. split; [lia | exact Hcol]. }
    destruct (digested_inj _ _ _ _ _ _ _ Hr Hr' Heq) as [Hprev Htext].
    destruct (IH ltac:(lia) ltac:(lia) Hprev)
      as [Hcol | [(p & Hp & Hcol) | [Hname Hbefore]]].
    + now left.
    + right. left. exists p. split; [lia | exact Hcol].
    + right. right. split; [exact Hname |].
      intros i x x' Hi Hx Hx'.
      destruct (Nat.eq_dec i k) as [-> | Hne].
      * congruence.
      * apply (Hbefore i); [lia | assumption ..].
Qed.

(** The same for the hash at a position [k]. *)
Lemma fingerprint_at_eq_inv (name name' : string)
      (rules rules' : list Rule) (k : nat) :
  (k < length rules)%nat ->
  (k < length rules')%nat ->
  fingerprints name (seed name) rules !! k
  = fingerprints name' (seed name') rules' !! k ->
  collide (bytes_of_string name) (bytes_of_string name')
  \/ (exists p, (p <= k)%nat
                /\ collide (digested name rules p)
                           (digested name' rules' p))
  \/ (name = name'
      /\ forall i r r',
           (i <= k)%nat -> rules !! i = Some r -> rules' !! i = Some r' ->
           hashed_text name r = hashed_text name' r').
Proof.
  intros Hk Hk' Heq.
  destruct (lookup_lt_is_Some_2 rules k Hk) as [r Hr].
  destruct (lookup_lt_is_Some_2 rules' k Hk') as [r' Hr'].
  rewrite (fingerprints_lookup _ _ _ _ _ Hr),
    (fingerprints_lookup _ _ _ _ _ Hr') in Heq.
  injection Heq as Heq.
  rewrite (running_after_digested _ _ _ _ Hr),
    (running_after_digested _ _ _ _ Hr') in Heq.
  apply fingerprint_digest_eq_inv in Heq as [Heq | Hcol].
  2: { right. left. exists k. split; [lia | exact Hcol]. }
  destruct (digested_inj _ _ _ _ _ _ _ Hr Hr' Heq) as [Hprev Htext].
  destruct (running_after_eq_inv name name' rules rules' k
              ltac:(lia) ltac:(lia) Hprev)
    as [Hcol | [(p & Hp & Hcol) | [Hname Hbefore]]].
  - now left.
  - right. left. exists p. split; [lia | exact Hcol].
  - right. right. split; [exact Hname |].
    intros i x x' Hi Hx Hx'.
    destruct (Nat.eq_dec i k) as [-> | Hne].
    + congruence.
    + apply (Hbefore i); [lia | assumption ..].
Qed.

(** The fingerprint at [i] is computed from the first [i + 1] rules. *)
Lemma fingerprints_prefix (name : string) (running : list byte)
      (rules rules' : list Rule) (i : nat) :
  (i < length rules)%nat ->
  take (S i) rules = take (S i) rules' ->
  exists fp,
    fingerprints name running rules !! i = Some fp
    /\ fingerprints name running rules' !! i = Some fp.
Proof.
  intros Hi Htake.
  destruct (lookup_lt_is_Some_2 rules i Hi) as [r Hr].
  assert (Hr' : rules' !! i = Some r).
  { rewrite <- (lookup_take_lt rules' (S i) i) by lia.
    rewrite <- Htake, lookup_take_lt by lia. exact Hr. }
  exists (fingerprint (running_after name running rules (S i))).
  split; [now apply fingerprints_lookup with r |].
  rewrite (fingerprints_lookup _ _ _ _ _ Hr').
  unfold running_after. now rewrite Htake.
Qed.

(** C1: [RuleHashes] returns, for every chain, the fingerprints of the
    chained digest: the running digest starts as the digest of the chain
    name; for each rule in order it becomes the digest of its own bytes
    followed by the bytes of the rule rendered by [RenderAppend] with the
    prefix fragment [HASH]; the fingerprint of the rule is the first 16
    characters of its URL-safe unpadded base-64 text. *)
Theorem RuleHashes_chained_digest (level : Level) (c : Chain) :
  returns_hashes level c (RuleHashes_spec c)
  /\ length (RuleHashes_spec c) = length (Chain_Rules c)
  /\ forall i r,
       Chain_Rules c !! i = Some r ->
       RuleHashes_spec c !! i
       = Some (first_chars 16
                 (Base64.EncodeToString
                    (SHA224.sum224
                       (running_after (Chain_Name c)
                          (SHA224.sum224 (bytes_of_string (Chain_Name c)))
                          (Chain_Rules c) i
                        ++ bytes_of_string
                             (RenderAppend r (Chain_Name c) "HASH"))))).
Proof.
  split; [apply RuleHashes_returns |].
  split; [apply fingerprints_length |].
  intros i r Hr. unfold RuleHashes_spec.
  rewrite (fingerprints_lookup _ _ _ _ _ Hr),
    (running_after_S _ _ _ _ _ Hr).
  reflexivity.
Qed.

(** C2, as the code has it: exchanging the rules at [i < j] leaves the
    fingerprints before [i] as they were.  The fingerprint at a position
    [k] from [i] on changes when the two rules render to different hashed
    text and, at no position from [i] to [k], the two different messages
    digested there for the chain and for the exchanged chain have the same
    fingerprint; it stays the same only if the two rules render to the
    same hashed text or two such messages do have the same fingerprint.
    When the two rules render to the same hashed text no fingerprint
    changes. *)
Theorem swap_fingerprints (level : Level) (name : string)
        (rules : list Rule) (i j : nat) (ri rj : Rule) :
  (i < j)%nat ->
  rules !! i = Some ri ->
  rules !! j = Some rj ->
  exists hs hs',
    returns_hashes level
      {| Chain_Name := name; Chain_Rules := rules |} hs
    /\ returns_hashes level
         {| Chain_Name := name; Chain_Rules := swap_at i j rules |} hs'
    /\ length hs = length rules
    /\ length hs' = length rules
    /\ (forall k, (k < i)%nat -> hs' !! k = hs !! k)
    /\ (forall k, (i <= k < length rules)%nat ->
                  hashed_text name ri <> hashed_text name rj ->
                  (forall p, (i <= p <= k)%nat ->
                             ~ collide (digested name rules p)
                                       (digested name (swap_at i j rules) p)) ->
                  hs' !! k <> hs !! k)
    /\ (forall k, (i <= k < length rules)%nat ->
                  hs' !! k = hs !! k ->
                  hashed_text name ri = hashed_text name rj
                  \/ exists p, (i <= p <= k)%nat
                               /\ collide (digested name rules p)
                                          (digested name
                                             (swap_at i j rules) p))
    /\ (hashed_text name ri = hashed_text name rj -> hs' = hs).
Proof.
  intros Hij Hi Hj.
  destruct (swap_at_facts rules i j ri rj ltac:(lia) Hi Hj)
    as (Hsi & Hsj & Hsk & Hslen & Hstake).
  pose proof (lookup_lt_Some _ _ _ Hi) as Hil.
  set (c := {| Chain_Name := name; Chain_Rules := rules |}).
  set (c' := {| Chain_Name := name; Chain_Rules := swap_at i j rules |}).
  exists (RuleHashes_spec c), (RuleHashes_spec c').
  split; [apply RuleHashes_returns |].
  split; [apply RuleHashes_returns |].
  unfold RuleHashes_spec, c, c'. cbn [Chain_Name Chain_Rules].
  split; [apply fingerprints_length |].
  split; [rewrite fingerprints_length; exact Hslen |].
  assert (Hstay : forall k,
             (i <= k < length rules)%nat ->
             fingerprints name (seed name) (swap_at i j rules) !! k
             = fingerprints name (seed name) rules !! k ->
             hashed_text name ri = hashed_text name rj
             \/ exists p, (i <= p <= k)%nat
                          /\ collide (digested name rules p)
                                     (digested name (swap_at i j rules) p)).
  { intros k Hk Heq. symmetry in Heq.
    destruct (fingerprint_at_eq_inv name name rules (swap_at i j rules) k
                ltac:(lia) ltac:(rewrite Hslen; lia) Heq)
      as [Hcol | [(p & Hp & Hcol) | [_ Htexts]]].
    - now apply collide_irrefl in Hcol.
    - right. exists p. split; [| exact Hcol].
      split; [| exact Hp].
      destruct (Nat.le_gt_cases i p) as [Hle | Hlt]; [exact Hle |].
      exfalso. destruct Hcol as [Hne _]. apply Hne.
      apply digested_prefix. symmetry. apply Hstake; lia.
    - left. apply (Htexts i); [lia | exact Hi | exact Hsi]. }
  split; [| split; [| split]].
  - intros k Hk.
    destruct (fingerprints_prefix name (seed name) rules
                (swap_at i j rules) k) as (fp & H1 & H2).
    + lia.
    + symmetry. apply Hstake; lia.
    + now rewrite H1, H2.
  - intros k Hk Htext Hfree Heq.
    destruct (Hstay k Hk Heq) as [Hsame | (p & Hp & Hcol)].
    + exact (Htext Hsame).
    + exact (Hfree p Hp Hcol).
  - exact Hstay.
  - intros Htext. apply fingerprints_same_text.
    apply Forall2_same_length_lookup_2; [exact Hslen |].
    intros k x y Hx Hy.
    destruct (Nat.eq_dec k i) as [-> | Hki]; [congruence |].
    destruct (Nat.eq_dec k j) as [-> | Hkj]; [congruence |].
    rewrite Hsk in Hx by assumption. congruence.
Qed.

(** C3: the fingerprint at position [i] is the same for two rule
    sequences of a chain that agree on the positions [0] to [i]. *)
Theorem fingerprint_depends_on_prefix (level : Level) (name : string)
        (rules1 rules2 : list Rule) (i : nat) :
  (i < length rules1)%nat ->
  take (S i) rules1 = take (S i) rules2 ->
  exists hs1 hs2 fp,
    returns_hashes level
      {| Chain_Name := name; Chain_Rules := rules1 |} hs1
    /\ returns_hashes level
         {| Chain_Name := name; Chain_Rules := rules2 |} hs2
    /\ hs1 !! i = Some fp
    /\ hs2 !! i = Some fp.
Proof.
  intros Hi Htake.
  destruct (fingerprints_prefix name (seed name) rules1 rules2 i Hi Htake)
    as (fp & H1 & H2).
  exists (RuleHashes_spec {| Chain_Name := name; Chain_Rules := rules1 |}),
    (RuleHashes_spec {| Chain_Name := name; Chain_Rules := rules2 |}), fp.
  split; [apply RuleHashes_returns |].
  split; [apply RuleHashes_returns |].
  split; assumption.
Qed.

(** C4: the hashes [RuleHashes] returns are fixed by the name and the
    ordered rules of the chain; the level of the logger, the one input
    from outside the chain, has no part in them. *)
Theorem RuleHashes_deterministic (level1 level2 : Level) (c1 c2 : Chain) :
  Chain_Name c1 = Chain_Name c2 ->
  Chain_Rules c1 = Chain_Rules c2 ->
  exists hs,
    returns_hashes level1 c1 hs /\ returns_hashes level2 c2 hs.
Proof.
  intros Hname Hrules. exists (RuleHashes_spec c1). split.
  - apply RuleHashes_returns.
  - replace (RuleHashes_spec c1) with (RuleHashes_spec c2)
      by (unfold RuleHashes_spec; now rewrite Hname, Hrules).
    apply RuleHashes_returns.
Qed.

(** C7: every fingerprint [RuleHashes] returns has exactly 16
    characters, all of them in [A-Za-z0-9_-]. *)
Theorem RuleHashes_fingerprints (level : Level) (c : Chain) :
  exists hs,
    returns_hashes level c hs
    /\ length hs = length (Chain_Rules c)
    /\ Forall is_fingerprint hs.
Proof.
  exists (RuleHashes_spec c).
  split; [apply RuleHashes_returns |].
  split; [apply fingerprints_length | apply fingerprints_well_formed].
Qed.

End Chaining.

(* ===================================================================== *)
(** ** The code on concrete chains *)
(* ===================================================================== *)

(** SHA-224 of the FIPS 180-4 example messages (one and two blocks). *)
Example sum224_abc :
  hex_of_bytes (SHA224.sum224 (bytes_of_string "abc"))
  = "23097d223405d8228642a477bda255b32aadbce4bda0b3f7e36c9da7".
Proof. vm_compute. reflexivity. Qed.

Example sum224_two_blocks :
  hex_of_bytes
    (SHA224.sum224
       (bytes_of_string
          "abcdbcdecdefdefgefghfghighijhijkijkljklmklmnlmnomnopnopq"))
  = "75388b16512776cc5dba5da1fd890150b0c6455cb4f58b1952522525".
Proof. vm_compute. reflexivity. Qed.

(** The chain [cali-INPUT] with the single rule [--jump ACCEPT], with the
    logger at debug level. *)
Example RuleHashes_cali_INPUT :
  RenderAppend accept_rule "cali-INPUT" EmptyString
  = "-A cali-INPUT --jump ACCEPT"
  /\ RuleHashes DebugLevel
       {| Chain_Name := "cali-INPUT"; Chain_Rules := [accept_rule] |}
     = Some (["n6vie0m1ET9iZWmO"],
             [ {| LogEntry_ruleFragment := "-A cali-INPUT HASH --jump ACCEPT";
                  LogEntry_action := MkAction Build_AcceptAction;
                  LogEntry_position := 0;
                  LogEntry_chain := "cali-INPUT";
                  LogEntry_hash := "n6vie0m1ET9iZWmO" |} ]).
Proof. split; vm_compute; reflexivity. Qed.

(** Exchanging two rules with different text changes the hashes from the
    first of them on, here. *)
Example RuleHashes_three_rules :
  RuleHashes 0 {| Chain_Name := "cali-INPUT"; Chain_Rules := three_rules |}
  = Some (["n6vie0m1ET9iZWmO"; "LFf11RyLaK1atDTo"; "eG2v3s_PqIVUnQtS"], [])
  /\ RuleHashes 0 {| Chain_Name := "cali-INPUT";
                     Chain_Rules := swap_at 1 2 three_rules |}
     = Some (["n6vie0m1ET9iZWmO"; "Q6LFFD43Ud_GvrB7"; "ACb1sbn8o2km_imn"],
             []).
Proof. split; vm_compute; reflexivity. Qed.

Lemma jump_return_not_return : jump_return_rule <> return_rule.
Proof.
  intros H.
  assert (Ht : @eq Type JumpAction ReturnAction)
    by exact (f_equal (fun r => Action_type (Rule_Action r)) H).
  assert (Hone : forall T : Type, T = ReturnAction -> forall x y : T, x = y)
    by (intros T -> [] []; reflexivity).
  specialize (Hone JumpAction Ht {| JumpAction_Target := "a" |}
                   {| JumpAction_Target := "b" |}).
  discriminate Hone.
Qed.

(** C2 fails for two different rules with the same text: [--jump RETURN]
    as a jump to the target [RETURN] and as the return action.  After the
    exchange every hash is what it was. *)
Lemma swap_fingerprints_counterexample :
  jump_return_rule <> return_rule
  /\ swap_at 0 1 twin_rules = [return_rule; jump_return_rule]
  /\ RuleHashes 0 {| Chain_Name := "cali-INPUT"; Chain_Rules := twin_rules |}
     = Some (["4n5bVZD4Fy1ZgIzK"; "u0IFNk7Oc9OUopp8"], [])
  /\ RuleHashes 0 {| Chain_Name := "cali-INPUT";
                     Chain_Rules := swap_at 0 1 twin_rules |}
     = Some (["4n5bVZD4Fy1ZgIzK"; "u0IFNk7Oc9OUopp8"], []).
Proof.
  split; [exact jump_return_not_return |].
  split; [reflexivity |].
  split; vm_compute; reflexivity.
Qed.

Lemma swap_fingerprints_witness :
  (1 < 2)%nat
  /\ three_rules !! 1%nat = Some mark_rule
  /\ three_rules !! 2%nat = Some return_rule
  /\ hashed_text "cali-INPUT" mark_rule
     <> hashed_text "cali-INPUT" return_rule
  /\ (forall p, (1 <= p <= 2)%nat ->
                ~ collide (digested "cali-INPUT" three_rules p)
                          (digested "cali-INPUT"
                             (swap_at 1 2 three_rules) p))
  /\ exists hs hs',
       returns_hashes 0
         {| Chain_Name := "cali-INPUT"; Chain_Rules := three_rules |} hs
       /\ returns_hashes 0
            {| Chain_Name := "cali-INPUT";
               Chain_Rules := swap_at 1 2 three_rules |} hs'
       /\ hs' !! 0%nat = hs !! 0%nat
       /\ hs' !! 1%nat <> hs !! 1%nat
       /\ hs' !! 2%nat <> hs !! 2%nat.
Proof.
  assert (H12 : (1 < 2)%nat) by lia.
  assert (H1 : three_rules !! 1%nat = Some mark_rule) by reflexivity.
  assert (H2 : three_rules !! 2%nat = Some return_rule) by reflexivity.
  assert (Htext : hashed_text "cali-INPUT" mark_rule
                  <> hashed_text "cali-INPUT" return_rule)
    by (intros H; vm_compute in H; discriminate H).
  assert (Hfree : forall p, (1 <= p <= 2)%nat ->
                    ~ collide (digested "cali-INPUT" three_rules p)
                              (digested "cali-INPUT"
                                 (swap_at 1 2 three_rules) p)).
  { intros p Hp [_ Heq].
    assert (Hcases : p = 1%nat \/ p = 2%nat) by lia.
    destruct Hcases as [-> | ->]; vm_compute in Heq; discriminate Heq. }
  split; [exact H12 |]. split; [exact H1 |]. split; [exact H2 |].
  split; [exact Htext |]. split; [exact Hfree |].
  destruct (swap_fingerprints 0 "cali-INPUT" three_rules 1 2 mark_rule
              return_rule H12 H1 H2)
    as (hs & hs' & R & R' & _ & _ & Hbefore & Hchange & _ & _).
  exists hs, hs'. split; [exact R |]. split; [exact R' |].
  split; [apply Hbefore; lia |]. split.
  - apply Hchange; [cbn; lia | exact Htext |].
    intros p Hp. apply Hfree. lia.
  - apply Hchange; [cbn; lia | exact Htext | exact Hfree].
Defined.

Lemma fingerprint_depends_on_prefix_witness :
  (1 < length three_rules)%nat
  /\ take 2 three_rules = take 2 [accept_rule; mark_rule]
  /\ exists hs1 hs2 fp,
       returns_hashes 0
         {| Chain_Name := "cali-INPUT"; Chain_Rules := three_rules |} hs1
       /\ returns_hashes 0
            {| Chain_Name := "cali-INPUT";
               Chain_Rules := [accept_rule; mark_rule] |} hs2
       /\ hs1 !! 1%nat = Some fp
       /\ hs2 !! 1%nat = Some fp.
Proof.
  assert (Hlen : (1 < length three_rules)%nat) by (cbn; lia).
  assert (Htake : take 2 three_rules = take 2 [accept_rule; mark_rule])
    by reflexivity.
  split; [exact Hlen |]. split; [exact Htake |].
  exact (fingerprint_depends_on_prefix 0 "cali-INPUT" three_rules
           [accept_rule; mark_rule] 1 Hlen Htake).
Defined.

Lemma RuleHashes_deterministic_witness :
  Chain_Name {| Chain_Name := "cali-INPUT"; Chain_Rules := three_rules |}
  = Chain_Name {| Chain_Name := "cali-INPUT"; Chain_Rules := three_rules |}
  /\ Chain_Rules {| Chain_Name := "cali-INPUT"; Chain_Rules := three_rules |}
     = Chain_Rules
         {| Chain_Name := "cali-INPUT"; Chain_Rules := three_rules |}
  /\ exists hs,
       returns_hashes 0
         {| Chain_Name := "cali-INPUT"; Chain_Rules := three_rules |} hs
       /\ returns_hashes DebugLevel
            {| Chain_Name := "cali-INPUT"; Chain_Rules := three_rules |} hs.
Proof.
  split; [reflexivity |]. split; [reflexivity |].
  exact (RuleHashes_deterministic 0 DebugLevel
           {| Chain_Name := "cali-INPUT"; Chain_Rules := three_rules |}
           {| Chain_Name := "cali-INPUT"; Chain_Rules := three_rules |}
           eq_refl eq_refl).
Defined.

(* ===================================================================== *)
(** ** The log of [RuleHashes] *)
(* ===================================================================== *)

Section Logging.

Context {MatchCriteria : Type} `{!Renderer MatchCriteria}.

(** One turn of the loop, with what it logs. *)
Lemma hash_rule_logged (level : Level) (name : string) (rule : Rule)
      (st : loop_state) (filled : list string) (n : nat) :
  st_hashes st = filled ++ replicate (S n) EmptyString ->
  exists st',
    hash_rule level name (length filled) rule st = Some st'
    /\ st_hash st' = chain_step name (st_hash st) rule
    /\ st_hashes st'
       = (filled ++ [fingerprint (chain_step name (st_hash st) rule)])
         ++ replicate n EmptyString
    /\ st_logged st'
       = st_logged st
         ++ (if DebugLevel <=? level
             then [hashed_rule_entry name (length filled) rule
                     (fingerprint (chain_step name (st_hash st) rule))]
             else []).
Proof.
  intros Hhashes. unfold hash_rule. cbv zeta.
  change (Hash.Sum _ (take 0 (st_hash st)))
    with (chain_step name (st_hash st) rule).
  set (h := chain_step name (st_hash st) rule).
  rewrite (slice_to_fingerprint h) by apply chain_step_length.
  cbn [mbind option_bind].
  assert (Hstore : store_index (st_hashes st) (length filled)
                               (fingerprint h)
                   = Some ((filled ++ [fingerprint h])
                           ++ replicate n EmptyString)).
  { unfold store_index. rewrite Hhashes.
    destruct (Nat.ltb_spec (length filled)
                (length (filled ++ replicate (S n) EmptyString)))
      as [_ | Hge].
    - f_equal.
      rewrite <- (Nat.add_0_r (length filled)), insert_app_r.
      cbn [replicate]. now rewrite <- app_assoc.
    - rewrite length_app, length_replicate in Hge. lia. }
  rewrite Hstore. cbn [mbind option_bind].
  assert (Hread : ((filled ++ [fingerprint h])
                   ++ replicate n EmptyString) !! length filled
                  = Some (fingerprint h)).
  { rewrite <- app_assoc. now apply list_lookup_middle. }
  rewrite Hread.
  destruct (DebugLevel <=? level); cbn [mbind option_bind];
    eexists; (split; [reflexivity |]); cbn [st_hash st_hashes st_logged];
    repeat split; now rewrite ?app_nil_r.
Qed.

(** The whole loop, with what it logs. *)
Lemma range_rules_logged (level : Level) (name : string)
      (rules : list Rule) :
  forall (st : loop_state) (filled : list string),
    st_hashes st = filled ++ replicate (length rules) EmptyString ->
    exists st',
      range_rules level name (length filled) rules st = Some st'
      /\ st_hashes st' = filled ++ fingerprints name (st_hash st) rules
      /\ st_logged st'
         = st_logged st
           ++ (if DebugLevel <=? level
               then log_entries name (st_hash st) (length filled) rules
               else []).
Proof.
  induction rules as [|rule rest IH]; intros st filled Hhashes.
  - exists st. split; [reflexivity |]. cbn [fingerprints log_entries].
    cbn in Hhashes. split; [exact Hhashes |].
    destruct (DebugLevel <=? level); now rewrite app_nil_r.
  - destruct (hash_rule_logged level name rule st filled (length rest)
                Hhashes) as (st1 & Hstep & Hhash1 & Hhashes1 & Hlog1).
    cbn [range_rules]. rewrite Hstep. cbn [mbind option_bind].
    destruct (IH st1 (filled ++ [fingerprint
                                   (chain_step name (st_hash st) rule)])
                Hhashes1) as (st' & Hrun & Hres & Hlog).
    rewrite length_app, Nat.add_1_r in Hrun, Hlog.
    exists st'. split; [exact Hrun |]. split.
    + rewrite Hres, Hhash1, <- app_assoc. reflexivity.
    + rewrite Hlog, Hlog1, Hhash1, <- app_assoc.
      cbn [log_entries]. cbv zeta.
      destruct (DebugLevel <=? level); reflexivity.
Qed.

Lemma log_entries_length (name : string) (rules : list Rule) :
  forall running ii,
    length (log_entries name running ii rules) = length rules.
Proof.
  induction rules as [|r rest IH]; intros running ii;
    cbn [log_entries length]; [| rewrite IH]; reflexivity.
Qed.

Lemma log_entries_lookup (name : string) (rules : list Rule) :
  forall running ii i r,
    rules !! i = Some r ->
    log_entries name running ii rules !! i
    = Some (hashed_rule_entry name (ii + i) r
              (fingerprint (running_after name running rules (S i)))).
Proof.
  induction rules as [|r0 rest IH]; intros running ii i r Hi.
  - discriminate Hi.
  - destruct i as [|i].
    + cbn in Hi. injection Hi as ->. rewrite Nat.add_0_r. reflexivity.
    + cbn in Hi. cbn [log_entries]. cbv zeta.
      change ((?x :: ?l) !! S i) with (l !! i).
      rewrite (IH _ _ _ _ Hi).
      replace (S ii + i)%nat with (ii + S i)%nat by lia. reflexivity.
Qed.

(** X1: [RuleHashes] logs nothing below debug level; from debug level on
    it logs one entry for each rule, in rule order, that holds the rule's
    hashed rendering, its action, its index, the chain name and the hash
    returned for it. *)
Theorem RuleHashes_log (level : Level) (c : Chain) :
  exists hs log,
    RuleHashes level c = Some (hs, log)
    /\ (level < DebugLevel -> log = [])
    /\ (DebugLevel <= level ->
        length log = length (Chain_Rules c)
        /\ forall i r,
             Chain_Rules c !! i = Some r ->
             exists h,
               hs !! i = Some h
               /\ log !! i
                  = Some {| LogEntry_ruleFragment :=
                              RenderAppend r (Chain_Name c) "HASH";
                            LogEntry_action := Rule_Action r;
                            LogEntry_position := i;
                            LogEntry_chain := Chain_Name c;
                            LogEntry_hash := h |}).
Proof.
  unfold RuleHashes. cbv zeta.
  match goal with
  | |- context [range_rules _ _ _ _ ?st0] =>
      destruct (range_rules_logged level (Chain_Name c) (Chain_Rules c)
                  st0 []) as (st' & Hrun & Hres & Hlog); [reflexivity |]
  end.
  cbn [length st_hash st_logged app] in Hrun, Hres, Hlog.
  rewrite Hrun. cbn [mbind option_bind].
  exists (st_hashes st'), (st_logged st'). split; [reflexivity |].
  rewrite Hres, Hlog. split.
  - intros Hlow. destruct (Z.leb_spec DebugLevel level); [lia | reflexivity].
  - intros Hhigh. destruct (Z.leb_spec DebugLevel level); [| lia].
    split; [apply log_entries_length |].
    intros i r Hr. eexists. split.
    + apply fingerprints_lookup with r. exact Hr.
    + rewrite (log_entries_lookup _ _ _ _ _ _ Hr). reflexivity.
Qed.

End Logging.

(* ===================================================================== *)
(** ** Longer chains and shorter digests *)
(* ===================================================================== *)

(** The first 16 base-64 characters are the text of the first 12 bytes. *)
Lemma fingerprint_first_bytes (running : list byte) :
  (12 <= length running)%nat ->
  fingerprint running = Base64.EncodeToString (take 12 running).
Proof.
  intros Hlen.
  do 12 (destruct running as [|? running]; [cbn in Hlen; lia |]).
  unfold fingerprint, first_chars.
  cbn [take firstn Base64.EncodeToString]. cbv zeta. cbn [substring].
  destruct (Base64.EncodeToString running); reflexivity.
Qed.

Section Extending.

Context {MatchCriteria : Type} `{!Renderer MatchCriteria}.

Lemma fingerprints_app (name : string) (rules more : list Rule) :
  forall running,
    fingerprints name running (rules ++ more)
    = fingerprints name running rules
      ++ fingerprints name (fold_left (chain_step name) rules running) more.
Proof.
  induction rules as [|r rest IH]; intros running; [reflexivity |].
  cbn [app fingerprints fold_left]. cbv zeta. now rewrite IH.
Qed.

(** X2: rules added at the end of a chain leave the hashes of the rules
    before them as they were: the hashes of the longer chain are the hashes
    of the chain, then one hash for each added rule. *)
Theorem RuleHashes_extend (level : Level) (name : string)
        (rules more : list Rule) :
  exists hs tail,
    returns_hashes level {| Chain_Name := name; Chain_Rules := rules |} hs
    /\ returns_hashes level
         {| Chain_Name := name; Chain_Rules := rules ++ more |}
         (hs ++ tail)
    /\ length hs = length rules
    /\ length tail = length more.
Proof.
  exists (fingerprints name (seed name) rules),
    (fingerprints name (fold_left (chain_step name) rules (seed name)) more).
  split; [apply (RuleHashes_returns level
                   {| Chain_Name := name; Chain_Rules := rules |}) |].
  split.
  - rewrite <- fingerprints_app.
    apply (RuleHashes_returns level
             {| Chain_Name := name; Chain_Rules := rules ++ more |}).
  - split; apply fingerprints_length.
Qed.

(** X3: each hash is the unpadded URL-safe base-64 text of the first 12
    bytes, 96 bits, of the running SHA-224 digest after its rule. *)
Theorem RuleHashes_96_bits (level : Level) (c : Chain) :
  exists hs,
    returns_hashes level c hs
    /\ forall i r,
         Chain_Rules c !! i = Some r ->
         hs !! i
         = Some (Base64.EncodeToString
                   (take 12
                      (running_after (Chain_Name c)
                         (SHA224.sum224 (bytes_of_string (Chain_Name c)))
                         (Chain_Rules c) (S i)))).
Proof.
  exists (RuleHashes_spec c). split; [apply RuleHashes_returns |].
  intros i r Hr. unfold RuleHashes_spec.
  rewrite (fingerprints_lookup _ _ _ _ _ Hr).
  rewrite fingerprint_first_bytes; [reflexivity |].
  rewrite running_after_length; [lia | apply digest_length].
Qed.

End Extending.

(* ===================================================================== *)
(** ** What a hash pins down *)
(* ===================================================================== *)

Lemma spaced_app (a b : list string) :
  spaced (a ++ b) = spaced a +:+ spaced b.
Proof.
  induction a as [|x a IH]; [reflexivity |].
  cbn [app spaced]. now rewrite IH, !string_app_assoc.
Qed.

Section Pinning.

Context {MatchCriteria : Type} `{!Renderer MatchCriteria}.

Lemma optional_fragments_prefix (r : Rule) (prefixFragment : string) :
  optional_fragments r prefixFragment
  = unless_empty prefixFragment ++ optional_fragments r EmptyString.
Proof. reflexivity. Qed.

(** A rendered rule: the verb, the chain name and the number if any, the
    prefix fragment if any, then the text of the rule itself. *)
Lemma renderInner_text (r : Rule) (verb : string) (rest : list string)
      (prefixFragment : string) :
  renderInner r (verb :: rest) prefixFragment
  = verb +:+ spaced rest +:+ spaced (unless_empty prefixFragment)
    +:+ spaced (optional_fragments r EmptyString).
Proof.
  rewrite renderInner_fragments, optional_fragments_prefix.
  cbn [app]. now rewrite Join_cons, !spaced_app.
Qed.

Lemma hashed_text_own (name : string) (r1 r2 : Rule) :
  hashed_text name r1 = hashed_text name r2 ->
  spaced (optional_fragments r1 EmptyString)
  = spaced (optional_fragments r2 EmptyString).
Proof.
  unfold hashed_text, RenderAppend. cbn [app].
  rewrite !renderInner_text. intros H.
  do 3 apply string_app_inv_head in H. exact H.
Qed.

(** X5: two rules that render to the same text for hashing render to the
    same text with every verb, in every chain, with every prefix fragment
    and rule number. *)
Theorem same_hashed_text_same_rendering (name : string) (r1 r2 : Rule)
        (chainName prefixFragment : string) (ruleNum : Z) :
  RenderAppend r1 name "HASH" = RenderAppend r2 name "HASH" ->
  RenderAppend r1 chainName prefixFragment
  = RenderAppend r2 chainName prefixFragment
  /\ RenderInsert r1 chainName prefixFragment
     = RenderInsert r2 chainName prefixFragment
  /\ RenderReplace r1 chainName ruleNum prefixFragment
     = RenderReplace r2 chainName ruleNum prefixFragment.
Proof.
  intros Hsame. apply (hashed_text_own name) in Hsame.
  unfold RenderAppend, RenderInsert, RenderReplace. cbn [app].
  rewrite !renderInner_text, Hsame. auto.
Qed.

(** X4: when two chains have the same hash at a position [k], then they
    have the same name and, at every position up to [k], rules with the
    same hashed text, unless the two names, or the messages digested for
    the two chains at a position up to [k], are different and have the
    same fingerprint. *)
Theorem same_hash_same_chain_prefix (level : Level) (c1 c2 : Chain)
        (k : nat) :
  (k < length (Chain_Rules c1))%nat ->
  (k < length (Chain_Rules c2))%nat ->
  ~ collide (bytes_of_string (Chain_Name c1))
            (bytes_of_string (Chain_Name c2)) ->
  (forall p, (p <= k)%nat ->
             ~ collide (digested (Chain_Name c1) (Chain_Rules c1) p)
                       (digested (Chain_Name c2) (Chain_Rules c2) p)) ->
  exists hs1 hs2,
    returns_hashes level c1 hs1
    /\ returns_hashes level c2 hs2
    /\ (hs1 !! k = hs2 !! k ->
        Chain_Name c1 = Chain_Name c2
        /\ forall i r1 r2,
             (i <= k)%nat ->
             Chain_Rules c1 !! i = Some r1 ->
             Chain_Rules c2 !! i = Some r2 ->
             RenderAppend r1 (Chain_Name c1) "HASH"
             = RenderAppend r2 (Chain_Name c2) "HASH").
Proof.
  intros Hk1 Hk2 Hnames Hfree.
  exists (RuleHashes_spec c1), (RuleHashes_spec c2).
  split; [apply RuleHashes_returns |].
  split; [apply RuleHashes_returns |].
  unfold RuleHashes_spec. intros Heq.
  destruct (fingerprint_at_eq_inv (Chain_Name c1) (Chain_Name c2)
              (Chain_Rules c1) (Chain_Rules c2) k Hk1 Hk2 Heq)
    as [Hcol | [(p & Hp & Hcol) | Hsame]].
  - now apply Hnames in Hcol.
  - now apply (Hfree p Hp) in Hcol.
  - exact Hsame.
Qed.

End Pinning.

Lemma same_hashed_text_same_rendering_witness :
  RenderAppend jump_return_rule "cali-INPUT" "HASH"
  = RenderAppend return_rule "cali-INPUT" "HASH"
  /\ RenderAppend jump_return_rule "cali-fw" "--wait"
     = RenderAppend return_rule "cali-fw" "--wait"
  /\ RenderInsert jump_return_rule "cali-fw" "--wait"
     = RenderInsert return_rule "cali-fw" "--wait"
  /\ RenderReplace jump_return_rule "cali-fw" 7 "--wait"
     = RenderReplace return_rule "cali-fw" 7 "--wait".
Proof.
  assert (Hsame : RenderAppend jump_return_rule "cali-INPUT" "HASH"
                  = RenderAppend return_rule "cali-INPUT" "HASH")
    by reflexivity.
  split; [exact Hsame |].
  exact (same_hashed_text_same_rendering "cali-INPUT" jump_return_rule
           return_rule "cali-fw" "--wait" 7 Hsame).
Defined.

Lemma same_hash_same_chain_prefix_witness :
  (1 < length three_rules)%nat
  /\ (1 < length [accept_rule; mark_rule])%nat
  /\ ~ collide (bytes_of_string "cali-INPUT") (bytes_of_string "cali-INPUT")
  /\ (forall p, (p <= 1)%nat ->
                ~ collide (digested "cali-INPUT" three_rules p)
                          (digested "cali-INPUT"
                             [accept_rule; mark_rule] p))
  /\ exists hs1 hs2,
       returns_hashes 0
         {| Chain_Name := "cali-INPUT"; Chain_Rules := three_rules |} hs1
       /\ returns_hashes 0
            {| Chain_Name := "cali-INPUT";
               Chain_Rules := [accept_rule; mark_rule] |} hs2
       /\ hs1 !! 1%nat = hs2 !! 1%nat
       /\ forall i r1 r2,
            (i <= 1)%nat ->
            three_rules !! i = Some r1 ->
            [accept_rule; mark_rule] !! i = Some r2 ->
            RenderAppend r1 "cali-INPUT" "HASH"
            = RenderAppend r2 "cali-INPUT" "HASH".
Proof.
  assert (H1 : (1 < length three_rules)%nat) by (cbn; lia).
  assert (H2 : (1 < length [accept_rule; mark_rule])%nat) by (cbn; lia).
  assert (Hnames : ~ collide (bytes_of_string "cali-INPUT")
                             (bytes_of_string "cali-INPUT"))
    by apply collide_irrefl.
  assert (Hfree : forall p, (p <= 1)%nat ->
                    ~ collide (digested "cali-INPUT" three_rules p)
                              (digested "cali-INPUT"
                                 [accept_rule; mark_rule] p)).
  { intros p Hp [Hne _]. apply Hne.
    apply (digested_prefix "cali-INPUT" three_rules
             [accept_rule; mark_rule] p).
    destruct p as [|[|p]]; [reflexivity | reflexivity | lia]. }
  split; [exact H1 |]. split; [exact H2 |]. split; [exact Hnames |].
  split; [exact Hfree |].
  destruct (same_hash_same_chain_prefix 0
              {| Chain_Name := "cali-INPUT"; Chain_Rules := three_rules |}
              {| Chain_Name := "cali-INPUT";
                 Chain_Rules := [accept_rule; mark_rule] |} 1 H1 H2
              Hnames Hfree)
    as (hs1 & hs2 & R1 & R2 & Hpin).
  exists hs1, hs2. split; [exact R1 |]. split; [exact R2 |].
  assert (Heq : hs1 !! 1%nat = hs2 !! 1%nat).
  { unfold returns_hashes in R1, R2.
    vm_compute in R1. vm_compute in R2.
    injection R1 as <-. injection R2 as <-. reflexivity. }
  split; [exact Heq |]. exact (proj2 (Hpin Heq)).
Defined.

(* ===================================================================== *)
(** ** Reading fragments back *)
(* ===================================================================== *)

Lemma string_length_app (a b : string) :
  String.length (a +:+ b) = (String.length a + String.length b)%nat.
Proof.
  induction a as [|x a IH]; [reflexivity |].
  rewrite string_app_cons. cbn [String.length]. now rewrite IH.
Qed.

Lemma string_app_inj_length (a b x y : string) :
  String.length a = String.length b ->
  a +:+ x = b +:+ y ->
  a = b /\ x = y.
Proof.
  revert b. induction a as [|c a IH]; intros [|d b] Hlen H;
    try discriminate Hlen.
  - split; [reflexivity | exact H].
  - rewrite !string_app_cons in H. injection H as -> H.
    cbn [String.length] in Hlen.
    destruct (IH b ltac:(lia) H) as [-> ->]. split; reflexivity.
Qed.

Lemma string_app_inv_tail (a b c : string) : a +:+ c = b +:+ c -> a = b.
Proof.
  intros H. apply (string_app_inj_length a b c c); [| exact H].
  apply (f_equal String.length) in H. rewrite !string_length_app in H. lia.
Qed.

(** [%x]: different 64-bit words are printed differently. *)
Lemma fmt_x_inj (a b : Z) :
  0 <= a < 2 ^ 64 -> 0 <= b < 2 ^ 64 -> fmt_x a = fmt_x b -> a = b.
Proof.
  intros Ha Hb H.
  destruct (fmt_x_repr a Ha) as [Va _]. destruct (fmt_x_repr b Hb) as [Vb _].
  rewrite H in Va. congruence.
Qed.

Lemma fmt_d_negative (a : Z) :
  a < 0 -> fmt_d a = String "-" (fmt_d (- a)).
Proof.
  intros Ha. unfold fmt_d, fmtInteger.
  destruct (Z.ltb_spec a 0); [| lia].
  destruct (Z.ltb_spec (- a) 0); [lia | reflexivity].
Qed.

Lemma fmt_d_no_sign (a : Z) (s : string) :
  0 <= a < 2 ^ 64 -> fmt_d a <> String "-" s.
Proof.
  intros Ha H. destruct (fmt_d_repr a Ha) as [Va _].
  rewrite H in Va. discriminate Va.
Qed.

(** [%d]: different numbers of type [int] are printed differently. *)
Lemma fmt_d_inj (a b : Z) :
  is_int a -> is_int b -> fmt_d a = fmt_d b -> a = b.
Proof.
  unfold is_int. intros Ha Hb H.
  destruct (Z.lt_ge_cases a 0) as [Na | Pa];
    destruct (Z.lt_ge_cases b 0) as [Nb | Pb].
  - rewrite (fmt_d_negative a Na), (fmt_d_negative b Nb) in H.
    injection H as H.
    destruct (fmt_d_repr (- a) ltac:(lia)) as [Va _].
    destruct (fmt_d_repr (- b) ltac:(lia)) as [Vb _].
    rewrite H in Va. assert (- a = - b) by congruence. lia.
  - rewrite (fmt_d_negative a Na) in H. symmetry in H.
    now apply fmt_d_no_sign in H; [| lia].
  - rewrite (fmt_d_negative b Nb) in H.
    now apply fmt_d_no_sign in H; [| lia].
  - destruct (fmt_d_repr a ltac:(lia)) as [Va _].
    destruct (fmt_d_repr b ltac:(lia)) as [Vb _].
    rewrite H in Va. congruence.
Qed.

Lemma all_chars_app (p : ascii -> bool) (a b : string) :
  all_chars p (a +:+ b) = all_chars p a && all_chars p b.
Proof.
  induction a as [|x a IH]; [reflexivity |].
  rewrite string_app_cons. cbn [all_chars]. rewrite IH.
  now rewrite andb_assoc.
Qed.

Lemma digits_value_all (s : string) :
  forall acc v,
    digits_value dec_digit_value 10 acc s = Some v ->
    all_chars is_decimal_digit s = true.
Proof.
  induction s as [|c s IH]; intros acc v H; [reflexivity |].
  cbn [digits_value] in H. cbn [all_chars]. unfold is_decimal_digit at 1.
  destruct (dec_digit_value c) as [d |]; [| discriminate H].
  cbn [andb]. now apply IH with (acc * 10 + d) v.
Qed.

Lemma fmt_d_digits (a : Z) :
  0 <= a < 2 ^ 64 -> all_chars is_decimal_digit (fmt_d a) = true.
Proof.
  intros Ha. destruct (fmt_d_repr a Ha) as [Va _].
  unfold number_value in Va.
  destruct (is_empty (fmt_d a)); [discriminate Va |].
  now apply digits_value_all with 0 a.
Qed.

(** An address, a colon and a number: the number starts after the last
    colon. *)
Lemma colon_digits_inj (a1 a2 d1 d2 : string) :
  all_chars is_decimal_digit d1 = true ->
  all_chars is_decimal_digit d2 = true ->
  a1 +:+ ":" +:+ d1 = a2 +:+ ":" +:+ d2 ->
  a1 = a2 /\ d1 = d2.
Proof.
  intros H1 H2. revert a2.
  induction a1 as [|c a1 IH]; intros [|c' a2] H;
    repeat (rewrite string_app_cons in H || rewrite string_app_nil_l in H).
  - injection H as H. now split.
  - injection H as _ H. rewrite H, all_chars_app in H1.
    apply andb_true_iff in H1 as [_ H1]. discriminate H1.
  - injection H as _ H. rewrite <- H, all_chars_app in H2.
    apply andb_true_iff in H2 as [_ H2]. discriminate H2.
  - injection H as -> H.
    destruct (IH a2) as [-> ->]; [| now split].
    repeat (rewrite string_app_cons || rewrite string_app_nil_l).
    exact H.
Qed.

(** X6: within each type of action the fragment tells the fields apart:
    two [Goto] or two [Jump] actions with the same fragment have the same
    target, two [ClearMark] or two [SetMark] actions the same mark, two
    [DNAT] actions the same address and port. *)
Theorem ToFragment_injective :
  (forall g1 g2 : GotoAction, ToFragment g1 = ToFragment g2 -> g1 = g2)
  /\ (forall g1 g2 : JumpAction, ToFragment g1 = ToFragment g2 -> g1 = g2)
  /\ (forall m1 m2 : Z,
        is_uint32 m1 -> is_uint32 m2 ->
        ToFragment {| ClearMarkAction_Mark := m1 |}
        = ToFragment {| ClearMarkAction_Mark := m2 |} ->
        m1 = m2)
  /\ (forall m1 m2 : Z,
        is_uint32 m1 -> is_uint32 m2 ->
        ToFragment {| SetMarkAction_Mark := m1 |}
        = ToFragment {| SetMarkAction_Mark := m2 |} ->
        m1 = m2)
  /\ (forall (a1 a2 : string) (p1 p2 : Z),
        is_uint16 p1 -> is_uint16 p2 ->
        ToFragment {| DNATAction_DestAddr := a1; DNATAction_DestPort := p1 |}
        = ToFragment {| DNATAction_DestAddr := a2;
                        DNATAction_DestPort := p2 |} ->
        a1 = a2 /\ p1 = p2).
Proof.
  split; [| split; [| split; [| split]]].
  - intros [t1] [t2] H.
    change (("--goto " +:+ t1) = ("--goto " +:+ t2)) in H.
    apply string_app_inv_head in H. now subst.
  - intros [t1] [t2] H.
    change (("--jump " +:+ t1) = ("--jump " +:+ t2)) in H.
    apply string_app_inv_head in H. now subst.
  - intros m1 m2 H1 H2 H.
    change (("--jump MARK --set-mark 0/" +:+ fmt_x m1)
            = ("--jump MARK --set-mark 0/" +:+ fmt_x m2)) in H.
    apply string_app_inv_head in H.
    apply fmt_x_inj; auto using uint32_fits.
  - intros m1 m2 H1 H2 H.
    change (("--jump MARK --set-mark " +:+ fmt_x m1 +:+ "/" +:+ fmt_x m1)
            = ("--jump MARK --set-mark " +:+ fmt_x m2 +:+ "/" +:+ fmt_x m2))
      in H.
    apply string_app_inv_head in H.
    assert (Hlen : String.length (fmt_x m1) = String.length (fmt_x m2)).
    { apply (f_equal String.length) in H.
      rewrite !string_length_app in H. lia. }
    apply string_app_inj_length in H as [H _]; [| exact Hlen].
    apply fmt_x_inj; auto using uint32_fits.
  - intros a1 a2 p1 p2 H1 H2 H.
    change (("--jump DNAT --to-destination " +:+ a1 +:+ ":" +:+ fmt_d p1)
            = ("--jump DNAT --to-destination " +:+ a2 +:+ ":" +:+ fmt_d p2))
      in H.
    apply string_app_inv_head in H.
    apply colon_digits_inj in H as [Ha Hp];
      [| apply fmt_d_digits, uint16_fits; assumption ..].
    split; [exact Ha |].
    apply fmt_d_inj; [unfold is_int, is_uint16 in *; lia .. | exact Hp].
Qed.

(* ===================================================================== *)
(** ** The action fragment in the rendered rule *)
(* ===================================================================== *)

Lemma builtin_action_dashes (a : Action) :
  builtin_action a ->
  exists rest, ToFragment a = String "-" (String "-" rest).
Proof. intros []; eexists; reflexivity. Qed.

Lemma Join_snoc (x y : string) (fs : list string) :
  Join (x :: fs ++ [y]) " " = Join (x :: fs) " " +:+ " " +:+ y.
Proof.
  rewrite !Join_cons, spaced_app. cbn [spaced].
  now rewrite string_app_nil_r, !string_app_assoc.
Qed.

Section ActionLast.

Context {MatchCriteria : Type} `{!Renderer MatchCriteria}.

(** X7: the fragment of an action of one of the nine types of this file
    is never empty, so a rule with such an action is never rendered without
    it: the rendered rule is the verb, the chain name and the other
    fragments, then a space and the action fragment. *)
Theorem builtin_action_rendered_last (r : Rule)
        (chainName prefixFragment : string) (ruleNum : Z) :
  builtin_action (Rule_Action r) ->
  ToFragment (Rule_Action r) <> EmptyString
  /\ exists front : list string,
       front = unless_empty prefixFragment
               ++ (if is_empty (Rule_Comment r) then []
                   else [comment_fragment (Rule_Comment r)])
               ++ unless_empty (Render (Rule_Match r))
       /\ RenderAppend r chainName prefixFragment
          = Join ("-A" :: chainName :: front) " "
            +:+ " " +:+ ToFragment (Rule_Action r)
       /\ RenderInsert r chainName prefixFragment
          = Join ("-I" :: chainName :: front) " "
            +:+ " " +:+ ToFragment (Rule_Action r)
       /\ RenderReplace r chainName ruleNum prefixFragment
          = Join ("-R" :: chainName :: fmt_d ruleNum :: front) " "
            +:+ " " +:+ ToFragment (Rule_Action r).
Proof.
  intros Hb. destruct (builtin_action_dashes _ Hb) as [rest Hrest].
  split; [rewrite Hrest; discriminate |].
  eexists. split; [reflexivity |].
  assert (Hopt : forall p,
             optional_fragments r p
             = (unless_empty p
                ++ (if is_empty (Rule_Comment r) then []
                    else [comment_fragment (Rule_Comment r)])
                ++ unless_empty (Render (Rule_Match r)))
               ++ [ToFragment (Rule_Action r)]).
  { intros p. unfold optional_fragments.
    unfold unless_empty at 3. rewrite Hrest. cbn [is_empty].
    now rewrite <- !app_assoc. }
  unfold RenderAppend, RenderInsert, RenderReplace.
  rewrite !renderInner_fragments, Hopt. cbn [app].
  repeat split.
  - apply (Join_snoc "-A" _ (chainName :: _)).
  - apply (Join_snoc "-I" _ (chainName :: _)).
  - apply (Join_snoc "-R" _ (chainName :: fmt_d ruleNum :: _)).
Qed.

(** X8: the rendered text tells chains and rule numbers apart: the same
    rule appended or inserted with the same prefix fragment into chains
    with different names gives different text, and so does the same
    replacement at different rule numbers. *)
Theorem render_tells_apart (r : Rule) (prefixFragment : string) :
  (forall c1 c2,
     RenderAppend r c1 prefixFragment = RenderAppend r c2 prefixFragment ->
     c1 = c2)
  /\ (forall c1 c2,
        RenderInsert r c1 prefixFragment = RenderInsert r c2 prefixFragment ->
        c1 = c2)
  /\ (forall c n1 n2,
        is_int n1 -> is_int n2 ->
        RenderReplace r c n1 prefixFragment
        = RenderReplace r c n2 prefixFragment ->
        n1 = n2).
Proof.
  unfold RenderAppend, RenderInsert, RenderReplace. cbn [app].
  split; [| split].
  - intros c1 c2 H. rewrite !renderInner_text in H. cbn [spaced] in H.
    rewrite !string_app_nil_r, !string_app_assoc in H.
    do 2 apply string_app_inv_head in H.
    now apply string_app_inv_tail in H.
  - intros c1 c2 H. rewrite !renderInner_text in H. cbn [spaced] in H.
    rewrite !string_app_nil_r, !string_app_assoc in H.
    do 2 apply string_app_inv_head in H.
    now apply string_app_inv_tail in H.
  - intros c n1 n2 H1 H2 H. rewrite !renderInner_text in H.
    cbn [spaced] in H.
    rewrite !string_app_nil_r, !string_app_assoc in H.
    do 4 apply string_app_inv_head in H.
    apply string_app_inv_tail in H. now apply fmt_d_inj.
Qed.

End ActionLast.

Lemma builtin_action_rendered_last_witness :
  builtin_action (Rule_Action mark_rule)
  /\ ToFragment (Rule_Action mark_rule) <> EmptyString
  /\ RenderReplace mark_rule "cali-INPUT" 3 "--wait"
     = Join ["-R"; "cali-INPUT"; "3"; "--wait";
             comment_fragment "mark"; "-p tcp"] " "
       +:+ " " +:+ "--jump MARK --set-mark 10/10".
Proof.
  assert (Hb : builtin_action (Rule_Action mark_rule))
    by apply builtin_SetMark.
  destruct (builtin_action_rendered_last mark_rule "cali-INPUT" "--wait" 3
              Hb) as (Hne & front & Hfront & _ & _ & HR).
  split; [exact Hb |]. split; [exact Hne |].
  rewrite HR, Hfront. reflexivity.
Defined.

(* ===================================================================== *)
(** ** Spaces in the rendered rule *)
(* ===================================================================== *)

Lemma is_empty_app (a b : string) :
  is_empty (a +:+ b) = is_empty a && is_empty b.
Proof. destruct a; reflexivity. Qed.

Lemma tidy_spec (s : string) :
  tidy s = true
  <-> is_empty s = false /\ starts_with_space s = false
      /\ ends_with_space s = false /\ no_double_space s = true.
Proof.
  unfold tidy. rewrite !andb_true_iff, !negb_true_iff. tauto.
Qed.

(** Two tidy texts with one space between them are a tidy text. *)
Lemma tidy_join2 (a b : string) :
  tidy a = true -> tidy b = true -> tidy (a +:+ " " +:+ b) = true.
Proof.
  rewrite !tidy_spec. intros (Ea & Sa & Na & Da) (Eb & Sb & Nb & Db).
  change (" " +:+ b) with (String " " b).
  repeat split.
  - rewrite is_empty_app, Ea. reflexivity.
  - rewrite starts_with_space_app, Ea. exact Sa.
  - rewrite ends_with_space_app. cbn [is_empty].
    destruct b as [|c b]; [discriminate Eb |]. exact Nb.
  - rewrite no_double_space_app, Da, Na. cbn [no_double_space].
    rewrite Sb, Db. reflexivity.
Qed.

Lemma Join_tidy (fs : list string) :
  forall x,
    tidy x = true ->
    Forall (fun f => tidy f = true) fs ->
    tidy (Join (x :: fs) " ") = true.
Proof.
  induction fs as [|y fs IH]; intros x Hx Hfs; [exact Hx |].
  change (Join (x :: y :: fs) " ") with (x +:+ " " +:+ Join (y :: fs) " ").
  apply Forall_cons in Hfs as [Hy Hfs].
  apply tidy_join2; [exact Hx | now apply IH].
Qed.

Lemma decimal_digit_not_space (c : ascii) :
  is_decimal_digit c = true -> is_space c = false.
Proof.
  intros H. unfold is_space. destruct (Ascii.eqb_spec c " ") as [-> | _];
    [discriminate H | reflexivity].
Qed.

(** Text of digits is tidy. *)
Lemma digits_tidy (s : string) :
  s <> EmptyString -> all_chars is_decimal_digit s = true -> tidy s = true.
Proof.
  intros Hne Hall. apply tidy_spec.
  assert (Hgen : forall t,
             all_chars is_decimal_digit t = true ->
             starts_with_space t = false /\ ends_with_space t = false
             /\ no_double_space t = true).
  { induction t as [|c t IHt]; intros Ht; [repeat split |].
    cbn [all_chars] in Ht. apply andb_true_iff in Ht as [Hc Ht].
    apply decimal_digit_not_space in Hc.
    destruct (IHt Ht) as (S1 & S2 & S3).
    cbn [starts_with_space ends_with_space no_double_space].
    rewrite Hc, S3. repeat split. destruct t; [reflexivity | exact S2]. }
  destruct (Hgen s Hall) as (S1 & S2 & S3).
  repeat split; try assumption. now apply is_empty_false.
Qed.

(** A number of type [int] is printed as tidy text. *)
Lemma fmt_d_tidy (n : Z) : is_int n -> tidy (fmt_d n) = true.
Proof.
  unfold is_int. intros Hn.
  assert (Hpos : forall u, 0 <= u < 2 ^ 64 -> tidy (fmt_d u) = true).
  { intros u Hu. apply digits_tidy; [| now apply fmt_d_digits].
    destruct (fmt_d_repr u Hu) as [Vu _]. intros E. rewrite E in Vu.
    discriminate Vu. }
  destruct (Z.lt_ge_cases n 0) as [Hneg | Hge]; [| apply Hpos; lia].
  rewrite (fmt_d_negative n Hneg).
  specialize (Hpos (- n) ltac:(lia)). apply tidy_spec in Hpos.
  destruct Hpos as (E & S & N & D). apply tidy_spec.
  cbn [is_empty starts_with_space ends_with_space no_double_space].
  change (is_space "-") with false. cbn [andb negb].
  repeat split; try assumption.
  destruct (fmt_d (- n)); [discriminate E | exact N].
Qed.

Lemma split_spaces_nonempty (s : string) : split_spaces s <> [].
Proof.
  destruct s as [|c s]; cbn [split_spaces]; [discriminate |].
  destruct (is_space c); [discriminate |].
  destruct (split_spaces s); discriminate.
Qed.

(** The words of two texts with one space between them: the words of the
    first, then the words of the second. *)
Lemma split_spaces_join2 (a b : string) :
  split_spaces (a +:+ " " +:+ b) = split_spaces a ++ split_spaces b.
Proof.
  change (" " +:+ b) with (String " " b).
  induction a as [|c a IH].
  - reflexivity.
  - rewrite string_app_cons. cbn [split_spaces]. rewrite IH.
    destruct (is_space c); [reflexivity |].
    pose proof (split_spaces_nonempty a) as Hne.
    destruct (split_spaces a) as [|w ws]; [contradiction | reflexivity].
Qed.

Lemma Join_words (fs : list string) :
  forall x,
    split_spaces (Join (x :: fs) " ") = flat_map split_spaces (x :: fs).
Proof.
  induction fs as [|y fs IH]; intros x.
  - cbn [Join flat_map]. now rewrite app_nil_r.
  - change (Join (x :: y :: fs) " ") with (x +:+ " " +:+ Join (y :: fs) " ").
    rewrite split_spaces_join2, IH. reflexivity.
Qed.

Section Tidy.

Context {MatchCriteria : Type} `{!Renderer MatchCriteria}.

(** X9: the renderers put exactly one space between fragments and none
    at the ends: the words of the rendered rule, its pieces between single
    spaces, are the words of the verb, of the chain name, of the rule
    number for [RenderReplace], and of the fragments of the rule, in this
    order and with no word added or lost.  So when the chain name and the
    fragments are tidy (not empty, no space at either end, no two
    consecutive spaces), the rendered rule is tidy. *)
Theorem render_words (r : Rule) (chainName prefixFragment : string)
        (ruleNum : Z) :
  split_spaces (RenderAppend r chainName prefixFragment)
  = flat_map split_spaces
      (["-A"; chainName] ++ optional_fragments r prefixFragment)
  /\ split_spaces (RenderInsert r chainName prefixFragment)
     = flat_map split_spaces
         (["-I"; chainName] ++ optional_fragments r prefixFragment)
  /\ split_spaces (RenderReplace r chainName ruleNum prefixFragment)
     = flat_map split_spaces
         (["-R"; chainName; fmt_d ruleNum]
          ++ optional_fragments r prefixFragment)
  /\ (tidy chainName = true ->
      Forall (fun f => tidy f = true)
             (optional_fragments r prefixFragment) ->
      is_int ruleNum ->
      tidy (RenderAppend r chainName prefixFragment) = true
      /\ tidy (RenderInsert r chainName prefixFragment) = true
      /\ tidy (RenderReplace r chainName ruleNum prefixFragment) = true).
Proof.
  unfold RenderAppend, RenderInsert, RenderReplace.
  rewrite !renderInner_fragments. cbn [app].
  split; [apply Join_words |]. split; [apply Join_words |].
  split; [apply Join_words |].
  intros Hchain Hfrags Hnum.
  repeat split; apply Join_tidy; try reflexivity;
    repeat (apply Forall_cons; split); try assumption.
  now apply fmt_d_tidy.
Qed.

End Tidy.

Lemma render_words_witness :
  split_spaces (RenderReplace mark_rule "cali-INPUT" 3 "--wait")
  = ["-R"; "cali-INPUT"; "3"; "--wait"; "-m"; "comment"; "--comment";
     String "034" ("mark" +:+ String "034" EmptyString);
     "-p"; "tcp"; "--jump"; "MARK"; "--set-mark"; "10/10"]
  /\ tidy (RenderReplace mark_rule "cali-INPUT" 3 "--wait") = true.
Proof.
  destruct (render_words mark_rule "cali-INPUT" "--wait" 3)
    as (_ & _ & HR & Htidy).
  split.
  - rewrite HR. reflexivity.
  - apply Htidy; [reflexivity | repeat constructor | unfold is_int; lia].
Defined.

(* ===================================================================== *)
(** ** Hashes along a chain *)
(* ===================================================================== *)

Lemma bytes_of_string_length (s : string) :
  length (bytes_of_string s) = String.length s.
Proof.
  unfold bytes_of_string, list_byte_of_string.
  rewrite length_map. induction s as [|c s IH]; [reflexivity |].
  cbn [list_ascii_of_string length String.length]. now rewrite IH.
Qed.

Section Positions.

Context {MatchCriteria : Type} `{!Renderer MatchCriteria}.

(** The hashed text of a rule is longer than the name of its chain. *)
Lemma hashed_text_length (name : string) (r : Rule) :
  (String.length name < String.length (hashed_text name r))%nat.
Proof.
  unfold hashed_text, RenderAppend. cbn [app].
  rewrite renderInner_text. cbn [spaced].
  rewrite !string_length_app. cbn [String.length]. lia.
Qed.

(** The running digest does not come back to an earlier value, unless
    the chain name and the message digested at [d], or the messages
    digested at two positions [S d] apart, collide. *)
Lemma running_after_no_cycle (name : string) (rules : list Rule) (d : nat) :
  forall i,
    (i + S d <= length rules)%nat ->
    running_after name (seed name) rules i
    = running_after name (seed name) rules (i + S d) ->
    collide (bytes_of_string name) (digested name rules d)
    \/ exists p, (p < i)%nat
                 /\ collide (digested name rules p)
                            (digested name rules (p + S d)).
Proof.
  induction i as [|i IH]; intros Hlen Heq.
  - cbn [Nat.add] in Heq.
    destruct (lookup_lt_is_Some_2 rules d) as [r Hr]; [lia |].
    rewrite (running_after_digested _ _ _ _ Hr) in Heq.
    change (running_after name (seed name) rules 0) with (seed name) in Heq.
    unfold seed in Heq.
    apply digest_eq_inv in Heq as [Heq | Hcol]; [| now left].
    rewrite (digested_lookup _ _ _ _ Hr) in Heq.
    apply (f_equal (@length byte)) in Heq.
    rewrite length_app, !bytes_of_string_length in Heq.
    pose proof (hashed_text_length name r). lia.
  - destruct (lookup_lt_is_Some_2 rules i) as [r Hr]; [lia |].
    destruct (lookup_lt_is_Some_2 rules (i + S d)) as [r' Hr']; [lia |].
    change (S i + S d)%nat with (S (i + S d)) in Heq.
    rewrite (running_after_digested _ _ _ _ Hr),
      (running_after_digested _ _ _ _ Hr') in Heq.
    apply digest_eq_inv in Heq as [Heq | Hcol].
    2: { right. exists i. split; [lia | exact Hcol]. }
    rewrite (digested_lookup _ _ _ _ Hr), (digested_lookup _ _ _ _ Hr')
      in Heq.
    apply chain_input_inj in Heq as [Hprev _];
      [| now rewrite !running_after_seed_length].
    destruct (IH ltac:(lia) Hprev) as [Hcol | (p & Hp & Hcol)].
    + now left.
    + right. exists p. split; [lia | exact Hcol].
Qed.

(** X10: the hash of a rule is tied to its position: the hashes at two
    positions [i < j] of one chain are different, the same rule twice
    included, unless the chain name and the message digested at
    [j - i - 1], or the messages digested at two positions [j - i] apart
    up to [i] and [j], are different and have the same fingerprint. *)
Theorem hashes_differ_by_position (level : Level) (c : Chain) (i j : nat) :
  (i < j < length (Chain_Rules c))%nat ->
  ~ collide (bytes_of_string (Chain_Name c))
            (digested (Chain_Name c) (Chain_Rules c) (j - i - 1)) ->
  (forall p, (p <= i)%nat ->
             ~ collide (digested (Chain_Name c) (Chain_Rules c) p)
                       (digested (Chain_Name c) (Chain_Rules c)
                                 (p + (j - i)))) ->
  exists hs,
    returns_hashes level c hs
    /\ hs !! i <> hs !! j.
Proof.
  intros Hij Hname Hfree. exists (RuleHashes_spec c).
  split; [apply RuleHashes_returns |].
  unfold RuleHashes_spec. intros Heq.
  destruct (lookup_lt_is_Some_2 (Chain_Rules c) i) as [r Hr]; [lia |].
  destruct (lookup_lt_is_Some_2 (Chain_Rules c) j) as [r' Hr']; [lia |].
  rewrite (fingerprints_lookup _ _ _ _ _ Hr),
    (fingerprints_lookup _ _ _ _ _ Hr') in Heq.
  injection Heq as Heq.
  rewrite (running_after_digested _ _ _ _ Hr),
    (running_after_digested _ _ _ _ Hr') in Heq.
  apply fingerprint_digest_eq_inv in Heq as [Heq | Hcol].
  2: { apply (Hfree i); [lia |].
       replace (i + (j - i))%nat with j by lia. exact Hcol. }
  rewrite (digested_lookup _ _ _ _ Hr), (digested_lookup _ _ _ _ Hr')
    in Heq.
  apply chain_input_inj in Heq as [Hprev _];
    [| now rewrite !running_after_seed_length].
  destruct (running_after_no_cycle (Chain_Name c) (Chain_Rules c)
              (j - i - 1) i) as [Hcol | (p & Hp & Hcol)].
  - lia.
  - replace (i + S (j - i - 1))%nat with j by lia. exact Hprev.
  - exact (Hname Hcol).
  - apply (Hfree p); [lia |].
    replace (p + (j - i))%nat with (p + S (j - i - 1))%nat by lia.
    exact Hcol.
Qed.

(** X11: the hashes see a rule through its hashed text only: two chains
    with the same name whose rules, position by position, render to the
    same text for hashing have the same hashes. *)
Theorem same_text_same_hashes (level : Level) (name : string)
        (rules rules' : list Rule) :
  Forall2 (fun r r' => RenderAppend r name "HASH" = RenderAppend r' name "HASH")
          rules rules' ->
  exists hs,
    returns_hashes level {| Chain_Name := name; Chain_Rules := rules |} hs
    /\ returns_hashes level
         {| Chain_Name := name; Chain_Rules := rules' |} hs.
Proof.
  intros Hsame.
  exists (RuleHashes_spec {| Chain_Name := name; Chain_Rules := rules |}).
  split; [apply RuleHashes_returns |].
  replace (RuleHashes_spec {| Chain_Name := name; Chain_Rules := rules |})
    with (RuleHashes_spec {| Chain_Name := name; Chain_Rules := rules' |}).
  - apply RuleHashes_returns.
  - unfold RuleHashes_spec. cbn [Chain_Name Chain_Rules]. symmetry.
    now apply fingerprints_same_text.
Qed.

End Positions.

Lemma hashes_differ_by_position_witness :
  (0 < 1 < length [accept_rule; accept_rule])%nat
  /\ ~ collide (bytes_of_string "cali-INPUT")
               (digested "cali-INPUT" [accept_rule; accept_rule] (1 - 0 - 1))
  /\ (forall p, (p <= 0)%nat ->
                ~ collide (digested "cali-INPUT"
                             [accept_rule; accept_rule] p)
                          (digested "cali-INPUT"
                             [accept_rule; accept_rule] (p + (1 - 0))))
  /\ exists hs,
       returns_hashes 0
         {| Chain_Name := "cali-INPUT";
            Chain_Rules := [accept_rule; accept_rule] |} hs
       /\ hs !! 0%nat <> hs !! 1%nat.
Proof.
  assert (H : (0 < 1 < length [accept_rule; accept_rule])%nat)
    by (cbn; lia).
  assert (Hname : ~ collide (bytes_of_string "cali-INPUT")
                            (digested "cali-INPUT"
                               [accept_rule; accept_rule] (1 - 0 - 1)))
    by (intros [_ Heq]; vm_compute in Heq; discriminate Heq).
  assert (Hfree : forall p, (p <= 0)%nat ->
                    ~ collide (digested "cali-INPUT"
                                 [accept_rule; accept_rule] p)
                              (digested "cali-INPUT"
                                 [accept_rule; accept_rule] (p + (1 - 0)))).
  { intros p Hp [_ Heq]. assert (p = 0%nat) as -> by lia.
    vm_compute in Heq. discriminate Heq. }
  split; [exact H |]. split; [exact Hname |]. split; [exact Hfree |].
  exact (hashes_differ_by_position 0
           {| Chain_Name := "cali-INPUT";
              Chain_Rules := [accept_rule; accept_rule] |} 0 1 H
           Hname Hfree).
Defined.

Lemma same_text_same_hashes_witness :
  Forall2 (fun r r' => RenderAppend r "cali-INPUT" "HASH"
                       = RenderAppend r' "cali-INPUT" "HASH")
          twin_rules [return_rule; jump_return_rule]
  /\ exists hs,
       returns_hashes 0
         {| Chain_Name := "cali-INPUT"; Chain_Rules := twin_rules |} hs
       /\ returns_hashes 0
            {| Chain_Name := "cali-INPUT";
               Chain_Rules := [return_rule; jump_return_rule] |} hs.
Proof.
  assert (H : Forall2 (fun r r' => RenderAppend r "cali-INPUT" "HASH"
                                   = RenderAppend r' "cali-INPUT" "HASH")
                      twin_rules [return_rule; jump_return_rule])
    by (repeat constructor).
  split; [exact H |].
  exact (same_text_same_hashes 0 "cali-INPUT" twin_rules
           [return_rule; jump_return_rule] H).
Defined.

Lemma RuleHashes_log_witness :
  0 < DebugLevel
  /\ DebugLevel <= 5
  /\ (exists hs log,
        RuleHashes 0
          {| Chain_Name := "cali-INPUT"; Chain_Rules := three_rules |}
        = Some (hs, log)
        /\ log = [])
  /\ (exists hs log,
        RuleHashes 5
          {| Chain_Name := "cali-INPUT"; Chain_Rules := three_rules |}
        = Some (hs, log)
        /\ length log = length three_rules).
Proof.
  assert (Hlow : 0 < DebugLevel) by (unfold DebugLevel; lia).
  assert (Hhigh : DebugLevel <= 5) by (unfold DebugLevel; lia).
  split; [exact Hlow |]. split; [exact Hhigh |]. split.
  - destruct (RuleHashes_log 0
                {| Chain_Name := "cali-INPUT"; Chain_Rules := three_rules |})
      as (hs & log & E & Hnone & _).
    exists hs, log. split; [exact E | exact (Hnone Hlow)].
  - destruct (RuleHashes_log 5
                {| Chain_Name := "cali-INPUT"; Chain_Rules := three_rules |})
      as (hs & log & E & _ & Hall).
    exists hs, log. split; [exact E | exact (proj1 (Hall Hhigh))].
Defined.
